(** * storage-master: the record store of [src/module/storage-master.js]

    A shallow embedding of the [Storage] and [ObjectStorage] classes and
    the properties of their schema coercion, mutation, query and
    persistence operations.

    Modelling conventions.
    - JavaScript values are the primitives the schema types admit
      (string, number, boolean) together with [null] and [undefined].
    - A finite number is modelled by an integer ([Fin z]); [NaN] and the
      two infinities are separate constructors.  Fractions, [-0] and
      rounding are outside the model.
    - A row of the store is a finite map from property names to values;
      the order of a row's keys is only visible in the text written by
      [JSON.stringify] and is not modelled.
    - An object whose keys the code enumerates ([Object.keys(structure)],
      [Object.entries(values)]) is the list of its own properties in
      enumeration order.
    - The schema, the rows and the flat store are ordinary objects, so
      the names of the members of [Object.prototype] are [in] them and
      can be read from them.  The model follows this for the names a
      caller passes: the fields of the [values] given to [set] and the
      keys given to [ObjectStorage]'s [set] and [get].  A schema that
      itself declares a field, or a [rename], under one of these names,
      and a query by such a field, are outside the model; so is a row
      once an assignment of [null] under [__proto__] has cut it from
      [Object.prototype].
    - A file numeral is read as the number it writes, which is what
      [JSON.parse] does for the integers a double holds exactly; other
      numerals are outside the model.
    - The backing file is modelled by the JSON document it holds (an
      array of flat objects), not by its text. *)

From Stdlib Require Import Ascii.
From stdpp Require Import gmap strings list fin_maps sorting.

Local Open Scope Z_scope.
Local Open Scope string_scope.

(** ** Values *)

Inductive number :=
| Fin (z : Z)
| NaN
| PosInf
| NegInf.

Inductive value :=
| VUndefined
| VNull
| VBool (b : bool)
| VNum (n : number)
| VStr (s : string).

(** The finite number [z] as a value. *)
Definition num (z : Z) : value := VNum (Fin z).

#[global] Instance number_eq_dec : EqDecision number.
Proof. solve_decision. Defined.

#[global] Instance value_eq_dec : EqDecision value.
Proof. solve_decision. Defined.

(** The three type names a field descriptor may declare. *)
Inductive jstype := TString | TNumber | TBoolean.

#[global] Instance jstype_eq_dec : EqDecision jstype.
Proof. solve_decision. Defined.

(** The results of the [typeof] operator on the modelled values. *)
Inductive typetag := TagUndefined | TagObject | TagBoolean | TagNumber | TagString.

Definition typeof (v : value) : typetag :=
  match v with
  | VUndefined => TagUndefined
  | VNull => TagObject
  | VBool _ => TagBoolean
  | VNum _ => TagNumber
  | VStr _ => TagString
  end.

(** [typeof data == type] for a declared [type]. *)
Definition typeof_is (v : value) (t : jstype) : bool :=
  match typeof v, t with
  | TagString, TString => true
  | TagNumber, TNumber => true
  | TagBoolean, TBoolean => true
  | _, _ => false
  end.

(** ** Numbers: [==], [-] and [*] *)

Definition num_eq (a b : number) : bool :=
  match a, b with
  | Fin x, Fin y => bool_decide (x = y)
  | PosInf, PosInf => true
  | NegInf, NegInf => true
  | _, _ => false
  end.

Definition num_neg (a : number) : number :=
  match a with
  | Fin x => Fin (- x)
  | NaN => NaN
  | PosInf => NegInf
  | NegInf => PosInf
  end.

Definition num_sub (a b : number) : number :=
  match a, b with
  | Fin x, Fin y => Fin (x - y)
  | NaN, _ | _, NaN => NaN
  | PosInf, PosInf | NegInf, NegInf => NaN
  | PosInf, _ | _, NegInf => PosInf
  | NegInf, _ | _, PosInf => NegInf
  end.

Definition num_mul (a b : number) : number :=
  match a, b with
  | Fin x, Fin y => Fin (x * y)
  | NaN, _ | _, NaN => NaN
  | Fin x, (PosInf as i) | (PosInf as i), Fin x
  | Fin x, (NegInf as i) | (NegInf as i), Fin x =>
      if bool_decide (x = 0) then NaN
      else if bool_decide (0 < x) then i else num_neg i
  | PosInf, PosInf | NegInf, NegInf => PosInf
  | PosInf, NegInf | NegInf, PosInf => NegInf
  end.

(** The comparator result [v] makes [sort] swap when [v > 0]. *)
Definition num_pos (a : number) : bool :=
  match a with
  | Fin x => bool_decide (0 < x)
  | PosInf => true
  | _ => false
  end.

(** ** The runtime's string-to-number conversion

    [==] and [-] convert string operands with the runtime's
    [StringToNumber].  The store's code never inspects how; the model
    takes it as an interface. *)

Class JsRuntime := StringToNumber : string → number.

Section Values.
Context `{JsRuntime}.

Definition ToNumber (v : value) : number :=
  match v with
  | VUndefined => NaN
  | VNull => Fin 0
  | VBool b => Fin (if b then 1 else 0)
  | VNum n => n
  | VStr s => StringToNumber s
  end.

(** [a == b] on the modelled values. *)
Definition looseEq (a b : value) : bool :=
  match a, b with
  | VUndefined, VUndefined | VUndefined, VNull
  | VNull, VUndefined | VNull, VNull => true
  | VUndefined, _ | VNull, _ | _, VUndefined | _, VNull => false
  | VStr s, VStr t => bool_decide (s = t)
  | _, _ => num_eq (ToNumber a) (ToNumber b)
  end.

(** [a - b]. *)
Definition js_sub (a b : value) : number := num_sub (ToNumber a) (ToNumber b).

End Values.

(** [a ?? b]. *)
Definition nullish (v : value) : bool :=
  match v with
  | VUndefined | VNull => true
  | _ => false
  end.

Definition coalesce (a b : value) : value := if nullish a then b else a.

(** ** Objects *)

(** A row of the store, and reading a property of it. *)
Abbreviation row := (gmap string value).

Definition prop (r : row) (k : string) : value := default VUndefined (r !! k).

(** An object given by its own properties in enumeration order. *)
Abbreviation jsobj := (list (string * value)).

Fixpoint obj_get (o : jsobj) (k : string) : value :=
  match o with
  | [] => VUndefined
  | (k', v) :: o' => if bool_decide (k' = k) then v else obj_get o' k
  end.

(** The names of the members of [Object.prototype], which every
    ordinary object inherits. *)
Definition prototype_members : list string :=
  ["constructor"; "__defineGetter__"; "__defineSetter__"; "hasOwnProperty";
   "__lookupGetter__"; "__lookupSetter__"; "isPrototypeOf";
   "propertyIsEnumerable"; "toString"; "valueOf"; "__proto__"; "toLocaleString"].

Definition inherited (k : string) : bool := bool_decide (k ∈ prototype_members).

(** [o[k] = v] on an ordinary object given by its own properties.  The
    inherited [__proto__] is an accessor: unless the object has a
    property of its own under that name, the assignment creates none.
    (Its setter ignores a primitive other than [null], and with [null]
    cuts the object from [Object.prototype], of which the own
    properties keep no trace.) *)
Definition assign_prop (o : gmap string value) (k : string) (v : value)
  : gmap string value :=
  if bool_decide (k = "__proto__") && bool_decide (o !! k = None) then o
  else <[k := v]> o.

(** ** The field schema and the options *)

Record descriptor := {
  type : jstype;
  default_ : value;          (* [VUndefined] when no default is declared *)
  rename : option string;
}.

Abbreviation structure_t := (list (string * descriptor)).

Record save_options := {
  auto : value;              (* [VUndefined] when absent *)
  onExit : value;
}.

Record options_t := {
  checkType : value;         (* [VUndefined] when absent *)
  spaces : value;
  save_ : option save_options;
}.

Definition keys (st : structure_t) : list string := st.*1.

(** [this.structure[field]]. *)
Fixpoint descriptor_of (st : structure_t) (field : string) : option descriptor :=
  match st with
  | [] => None
  | (k, d) :: st' => if bool_decide (k = field) then Some d else descriptor_of st' field
  end.

(** ** Completions *)

Inductive exn := TypeError.

Inductive result (A : Type) :=
| Ok (a : A)
| Raise (e : exn).
Arguments Ok {A} a.
Arguments Raise {A} e.

#[global] Instance result_bind : MBind result :=
  λ A B k m, match m with Ok a => k a | Raise e => Raise e end.

Section Coercion.
Context `{JsRuntime}.
Variable st : structure_t.
Variable opts : options_t.

(** [#isField]: [field in this.structure] holds of the declared fields
    and of the names the schema object inherits. *)
Definition isField (field : string) : bool :=
  bool_decide (is_Some (descriptor_of st field)) || inherited field.

(** [this.options?.checkType == false]. *)
Definition checkType_off : bool := looseEq (checkType opts) (VBool false).

(** [#isCorrectType]: with type-checking on, [this.structure[field]]
    is destructured before [#isField] is consulted.  That raises a
    [TypeError] when the schema has nothing under the name, own or
    inherited; an inherited member has no [type], and no [typeof] is
    [== undefined]. *)
Definition isCorrectType (field : string) (data : value) : result bool :=
  if checkType_off then Ok (isField field)
  else
    match descriptor_of st field with
    | Some d => Ok (isField field && typeof_is data (type d))
    | None => if inherited field then Ok false else Raise TypeError
    end.

(** One step of the [reduce] in [#createRow]. *)
Definition createRow_step (values : jsobj) (previous : result row) (current : string)
  : result row :=
  prev ← previous;
  ok ← isCorrectType current (obj_get values current);
  if ok : bool then Ok (<[current := obj_get values current]> prev)
  else
    match descriptor_of st current with
    | None => Raise TypeError
    | Some d => Ok (<[current := coalesce (default_ d) VNull]> prev)
    end.

(** [#createRow]. *)
Definition createRow (values : jsobj) : result row :=
  foldl (createRow_step values) (Ok ∅) (keys st).

End Coercion.

(** ** The backing file and the process around the store *)

Inductive jval :=
| JNull
| JBool (b : bool)
| JNum (z : Z)
| JStr (s : string).

Abbreviation jrow := (gmap string jval).
Abbreviation document := (list jrow).

(** What [JSON.stringify] writes for a property value: nothing for
    [undefined], [null] for a number that is not finite. *)
Definition to_json (v : value) : option jval :=
  match v with
  | VUndefined => None
  | VNull => Some JNull
  | VBool b => Some (JBool b)
  | VNum (Fin z) => Some (JNum z)
  | VNum _ => Some JNull
  | VStr s => Some (JStr s)
  end.

(** What [JSON.parse] reads.  A numeral is read as the number it
    writes: this is exact for an integer of magnitude at most [2 ^ 53],
    and [JSON.parse] rounds the others, or reads an infinity. *)
Definition of_json (j : jval) : value :=
  match j with
  | JNull => VNull
  | JBool b => VBool b
  | JNum z => VNum (Fin z)
  | JStr s => VStr s
  end.

Definition stringify_row (r : gmap string value) : gmap string jval := omap to_json r.
Definition parse_row (j : gmap string jval) : gmap string value := of_json <$> j.

(** [JSON.stringify(this.storage)] and [JSON.parse] of the file. *)
Definition stringify (rows : list row) : document := map stringify_row rows.
Definition parse (d : document) : list row := map parse_row d.

Record world := {
  files : gmap string document;
  intervals : list number;       (* delays handed to [setInterval], in ms *)
  handlers : list string;        (* events given a handler by [process.on] *)
}.

Record store := {
  directory : string;
  structure : structure_t;
  options : options_t;
  storage : list row;            (* the contents of the array [this.storage] *)
  array_id : nat;                (* which array object [this.storage] refers to:
                                    it changes when the property is reassigned *)
}.

Definition with_storage (s : store) (rows : list row) : store :=
  {| directory := directory s; structure := structure s; options := options s;
     storage := rows; array_id := array_id s |}.

(** [this.storage = rows] with a newly created array. *)
Definition assign_storage (s : store) (rows : list row) : store :=
  {| directory := directory s; structure := structure s; options := options s;
     storage := rows; array_id := S (array_id s) |}.

Inductive completion :=
| Returned (s : store)
| Thrown (e : exn) (s : store)   (* the store as the exception leaves it *)
| Pending.                       (* [#generateID] is still drawing *)

Section Store.
Context `{JsRuntime}.

(** [#createFile]. *)
Definition createFile (dir : string) (w : world) : world :=
  match files w !! dir with
  | Some _ => w
  | None => {| files := <[dir := []]> (files w);
               intervals := intervals w; handlers := handlers w |}
  end.

Definition setInterval (delay : number) (w : world) : world :=
  {| files := files w; intervals := intervals w ++ [delay]; handlers := handlers w |}.

(** [save?.auto] and [save?.onExit]. *)
Definition save_auto (opts : options_t) : value :=
  match save_ opts with Some sv => auto sv | None => VUndefined end.
Definition save_onExit (opts : options_t) : value :=
  match save_ opts with Some sv => onExit sv | None => VUndefined end.

(** [#saveAuto]. *)
Definition saveAuto (opts : options_t) (w : world) : world :=
  if looseEq (save_auto opts) (VNum (Fin 0)) then w
  else
    match typeof (save_auto opts) with
    | TagNumber => setInterval (num_mul (ToNumber (save_auto opts)) (Fin 1000)) w
    | _ => setInterval (num_mul (Fin 60) (Fin 1000)) w
    end.

(** [#saveOnExit]. *)
Definition saveOnExit (opts : options_t) (w : world) : world :=
  if looseEq (save_onExit opts) (VBool false) then w
  else if looseEq (save_onExit opts) (VBool true)
          || looseEq (save_onExit opts) VUndefined
  then {| files := files w; intervals := intervals w;
          handlers := handlers w ++ ["exit"; "SIGINT"] |}
  else w.

(** The key under which [#structure] files a field: [rename] when it is
    truthy, the field's own name otherwise. *)
Definition out_name (current : string) (d : descriptor) : string :=
  match rename d with
  | Some r => if bool_decide (r = "") then current else r
  | None => current
  end.

Definition structure_step (r : row) (previous : row) (cd : string * descriptor) : row :=
  <[out_name cd.1 cd.2 := prop r cd.1]> previous.

(** The body of the [forEach] in [#structure]:
    [{ id: row.id, ...structured }].  The [reduce] runs over
    [Object.keys(this.structure)] and reads [this.structure[current]],
    the descriptor listed with the key. *)
Definition structure_row (st : structure_t) (r : row) : row :=
  foldl (structure_step r) ∅ st ∪ {["id" := prop r "id"]}.

(** The constructor. *)
Definition construct (w : world) (dir : string) (st : structure_t) (opts : options_t)
  : world * store :=
  let w := saveOnExit opts (saveAuto opts (createFile dir w)) in
  (w, {| directory := dir; structure := st; options := opts;
         storage := map (structure_row st) (parse (default [] (files w !! dir)));
         array_id := 0 |}).

Definition save (s : store) (w : world) : world :=
  {| files := <[directory s := stringify (storage s)]> (files w);
     intervals := intervals w; handlers := handlers w |}.

Definition clear (s : store) : store := assign_storage s [].

Definition id_is (id : value) (r : row) : bool := looseEq (prop r "id") id.

Definition delete_ (s : store) (id : value) : store :=
  assign_storage s (List.filter (λ r, negb (id_is id r)) (storage s)).

Definition get (s : store) (id : value) : option row :=
  List.find (id_is id) (storage s).

(** [#generateID]; [draws] are the successive values of
    [Math.floor(Math.random() * 2147483649)]. *)
Fixpoint generateID (s : store) (draws : list Z) : option Z :=
  match draws with
  | [] => None
  | random :: draws' =>
      match get s (VNum (Fin random)) with
      | Some _ => generateID s draws'
      | None => Some random
      end
  end.

(** [this.storage.push({ id: id ?? this.#generateID(), ...this.#createRow(values) })]. *)
Definition push_row (s : store) (id : value) (values : jsobj) (draws : list Z)
  : completion :=
  match (if nullish id then VNum ∘ Fin <$> generateID s draws else Some id) with
  | None => Pending
  | Some id' =>
      match createRow (structure s) (options s) values with
      | Ok r => Returned (with_storage s (storage s ++ [r ∪ {["id" := id']}]))
      | Raise e => Thrown e s
      end
  end.

Definition add (s : store) (id : value) (values : jsobj) (draws : list Z) : completion :=
  match get s id with
  | Some _ => Returned s
  | None => push_row s id values draws
  end.

(** [findIndex]; the result [-1] is represented by the index past the
    end, where an element read is [undefined] as well. *)
Fixpoint findIndex (p : row → bool) (rows : list row) : nat :=
  match rows with
  | [] => 0
  | r :: rows' => if p r then 0 else S (findIndex p rows')
  end.

(** The [forEach] over [Object.entries(values)] in [set]. *)
Fixpoint assign_entries (st : structure_t) (opts : options_t) (index : nat)
    (rows : list row) (entries : jsobj) : list row * option exn :=
  match entries with
  | [] => (rows, None)
  | (field, v) :: entries' =>
      match isCorrectType st opts field v with
      | Raise e => (rows, Some e)
      | Ok false => assign_entries st opts index rows entries'
      | Ok true =>
          match rows !! index with
          | Some r =>
              assign_entries st opts index (<[index := assign_prop r field v]> rows) entries'
          | None => (rows, Some TypeError)
          end
      end
  end.

Definition set (s : store) (id : value) (values : jsobj) (draws : list Z) : completion :=
  match get s id with
  | Some _ =>
      let index := findIndex (id_is id) (storage s) in
      match assign_entries (structure s) (options s) index (storage s) values with
      | (rows, None) => Returned (with_storage s rows)
      | (rows, Some e) => Thrown e (with_storage s rows)
      end
  | None => push_row s id values draws
  end.

End Store.

(** ** Queries *)

Record sort_spec := {
  sort_field : option string;    (* [None] when the property is absent *)
  sort_order : option string;
}.

Definition no_sort_spec : sort_spec := {| sort_field := None; sort_order := None |}.

(** The [sort] argument of [getFew]: omitted, falsy, or an object. *)
Inductive sort_param :=
| SortOmitted
| SortFalsy
| SortBy (sp : sort_spec).

(** [Array.prototype.sort] with a comparator.  The sort is stable, and
    for a consistent comparator its result is fixed by the comparator;
    the model is a stable insertion sort, in which an element moves
    behind another exactly when the comparator is positive on them. *)
Fixpoint sort_insert (cmp : row → row → number) (x : row) (l : list row) : list row :=
  match l with
  | [] => [x]
  | y :: l' => if num_pos (cmp x y) then y :: sort_insert cmp x l' else x :: l
  end.

Definition array_sort (cmp : row → row → number) (l : list row) : list row :=
  foldr (sort_insert cmp) [] l.

Section Queries.
Context `{JsRuntime}.

(** The comparator of [#sort]. *)
Definition compare_rows (field order : string) (a b : row) : number :=
  if bool_decide (order = "ascending")
  then js_sub (prop a field) (prop b field)
  else js_sub (prop b field) (prop a field).

(** [#sort(array, field = 'id', order = 'ascending')]. *)
Definition sort_ (array : list row) (field order : option string) : list row :=
  array_sort (compare_rows (default "id" field) (default "ascending" order)) array.

(** [getAll(sort = {})]: sorts the array [this.storage] itself and
    returns it; the second component is the identity of the array
    returned. *)
Definition getAll (s : store) (sort : option sort_spec) : store * nat :=
  let sp := default no_sort_spec sort in
  (with_storage s (sort_ (storage s) (sort_field sp) (sort_order sp)), array_id s).

(** What a holder of the array numbered [ref] sees of store [s]. *)
Definition view (s : store) (ref : nat) : option (list row) :=
  if bool_decide (ref = array_id s) then Some (storage s) else None.

Definition matches (value : value) (field : string) (r : row) : bool :=
  looseEq (prop r field) value.

(** [getOne(value, field, array = this.storage)]. *)
Definition getOne (s : store) (value : value) (field : string)
    (array : option (list row)) : option row :=
  List.find (matches value field) (default (storage s) array).

(** [getFew(value, field, sort = {}, array = this.storage)]: [filter]
    builds a new array, which is the one sorted and returned. *)
Definition getFew (s : store) (value : value) (field : string)
    (sort : sort_param) (array : option (list row)) : list row :=
  let result := List.filter (matches value field) (default (storage s) array) in
  match sort with
  | SortOmitted => sort_ result None None
  | SortBy sp => sort_ result (sort_field sp) (sort_order sp)
  | SortFalsy => result
  end.

(** The [result] of [find(value, field, array = this.storage)]. *)
Definition find_result (s : store) (value : value) (field : string)
    (array : option (list row)) : list row :=
  List.filter (matches value field) (default (storage s) array).


End Queries.

(** ** Sequences of calls *)

Inductive call :=
| Add (id : value) (values : jsobj) (draws : list Z)
| Set_ (id : value) (values : jsobj) (draws : list Z).

Section Calls.
Context `{JsRuntime}.

Definition perform (s : store) (c : call) : completion :=
  match c with
  | Add id values draws => add s id values draws
  | Set_ id values draws => set s id values draws
  end.

(** The calls one after the other; an exception ends the sequence. *)
Fixpoint run (s : store) (calls : list call) : completion :=
  match calls with
  | [] => Returned s
  | c :: calls' =>
      match perform s c with
      | Returned s' => run s' calls'
      | other => other
      end
  end.

End Calls.

(** ** The flat variant *)

Module ObjectStorage.

Record store := {
  directory : string;
  options : options_t;
  structure : option structure_t;   (* [options?.structure] *)
  storage : gmap string value;      (* the own properties of [this.storage] *)
  detached : bool;                  (* [this.storage] has been cut from
                                       [Object.prototype] *)
}.

(** What reading a property gives: a value, or the member of
    [Object.prototype] of that name. *)
Inductive looked_up :=
| Held (v : value)
| Member (name : string).

Section Ops.
Context `{JsRuntime}.

(** [this.storage[key] = v].  While the object inherits from
    [Object.prototype], an assignment under [__proto__] that finds no
    property of its own goes to the inherited setter, which cuts the
    object off when [v] is [null]; an object cut off has no accessor
    left, and the assignment creates the property. *)
Definition write (s : store) (key : string) (v : value) : store :=
  if detached s
  then {| directory := directory s; options := options s; structure := structure s;
          storage := <[key := v]> (storage s); detached := true |}
  else {| directory := directory s; options := options s; structure := structure s;
          storage := assign_prop (storage s) key v;
          detached := bool_decide (key = "__proto__")
                      && bool_decide (storage s !! key = None)
                      && bool_decide (v = VNull) |}.

Definition set (s : store) (key : string) (v : value) : result store :=
  match structure s with
  | Some st =>
      ok ← isCorrectType st (options s) key v;
      Ok (if ok : bool then write s key v else s)
  | None => Ok (write s key v)
  end.

(** [this.storage[key]]: the object's own property, else what it
    inherits, else [undefined]. *)
Definition get (s : store) (key : string) : looked_up :=
  match storage s !! key with
  | Some v => Held v
  | None => if negb (detached s) && inherited key then Member key else Held VUndefined
  end.

(** The files that hold an object, next to the rest of the process.  A
    path is taken to hold an object or an array of rows, not both. *)
Record disk := {
  objects : gmap string (gmap string jval);
  process : world;
}.

(** [#createFile]: a missing file is created holding [{}]. *)
Definition createFile (dir : string) (w : disk) : disk :=
  match objects w !! dir with
  | Some _ => w
  | None => {| objects := <[dir := ∅]> (objects w); process := process w |}
  end.

(** [#structure]: with a schema the object read is rebuilt from the
    declared fields, and left as read without one. *)
Definition structure_ (st : option structure_t) (raw : gmap string value)
  : gmap string value :=
  match st with
  | Some st => foldl (structure_step raw) ∅ st
  | None => raw
  end.

(** The constructor; [#saveAuto] and [#saveOnExit] are the ones of the
    record store, line for line. *)
Definition construct (w : disk) (dir : string) (opts : options_t)
    (st : option structure_t) : disk * store :=
  let w1 := createFile dir w in
  let w2 := {| objects := objects w1;
               process := saveOnExit opts (saveAuto opts (process w1)) |} in
  (w2, {| directory := dir; options := opts; structure := st;
          storage := structure_ st (parse_row (default ∅ (objects w2 !! dir)));
          detached := false |}).

Definition save (s : store) (w : disk) : disk :=
  {| objects := <[directory s := stringify_row (storage s)]> (objects w);
     process := process w |}.

(** [set] takes the value: there is no schema; or the key is declared
    and the value has the declared type or type-checking is off; or
    type-checking is off and the key is a name the schema inherits. *)
Definition accepts (s : store) (key : string) (v : value) : bool :=
  match structure s with
  | None => true
  | Some st =>
      match descriptor_of st key with
      | Some d => checkType_off (options s) || typeof_is v (type d)
      | None => checkType_off (options s) && inherited key
      end
  end.

End Ops.
End ObjectStorage.

(** ** A runtime for the examples

    [StringToNumber] on decimal integer literals with an optional sign;
    the empty string is [0].  Every other string is sent to [NaN], which
    is what the runtime does except on fractions, exponents, radix
    prefixes, surrounding white space and [Infinity]; the examples use
    none of these. *)

Definition digit_of (c : ascii) : option Z :=
  let n := Z.of_N (N_of_ascii c) in
  if bool_decide (48 ≤ n ≤ 57)%Z then Some (n - 48)%Z else None.

Fixpoint digits_from (acc : Z) (s : string) : option Z :=
  match s with
  | EmptyString => Some acc
  | String c s' =>
      match digit_of c with
      | Some d => digits_from (10 * acc + d) s'
      | None => None
      end
  end.

Definition unsigned_literal (s : string) : number :=
  match s with
  | EmptyString => NaN
  | _ => match digits_from 0 s with Some z => Fin z | None => NaN end
  end.

Definition decimal_literal (s : string) : number :=
  match s with
  | EmptyString => Fin 0
  | String "-"%char s' => num_neg (unsigned_literal s')
  | String "+"%char s' => unsigned_literal s'
  | _ => unsigned_literal s
  end.

#[global] Instance decimal_runtime : JsRuntime := decimal_literal.

(** ** Chained queries *)

(** The object [find] returns.  Its methods [find], [getOne] and
    [getFew] are the store's, called on [result]
    (here [result_]). *)
Record found := { result_ : list row }.

Section Find.
Context `{JsRuntime}.

(** [find(value, field, array = this.storage)]. *)
Definition find (s : store) (value : value) (field : string)
    (array : option (list row)) : found :=
  {| result_ := List.filter (matches value field) (default (storage s) array) |}.

Definition found_find (s : store) (fd : found) (value : value) (field : string) : found :=
  find s value field (Some (result_ fd)).

Definition found_getOne (s : store) (fd : found) (value : value) (field : string)
  : option row :=
  getOne s value field (Some (result_ fd)).

Definition found_getFew (s : store) (fd : found) (value : value) (field : string)
    (sort : sort_param) : list row :=
  getFew s value field sort (Some (result_ fd)).

(** The row matches both conditions. *)
Definition matches_both (v1 : value) (f1 : string) (v2 : value) (f2 : string)
    (r : row) : bool :=
  matches v1 f1 r && matches v2 f2 r.

(** No row has converted to a number under [field]. *)
Definition not_numeric_on (field : string) (r : row) : Prop :=
  ToNumber (prop r field) = NaN.

(** The rows have numbers for identifiers. *)
Definition number_id (r : row) : Prop := ∃ n, prop r "id" = VNum n.

End Find.

(** ** Notions used in the statements *)

Section Notions.
Context `{JsRuntime}.

(** The value [#createRow] files under a declared field. *)
Definition coerced (st : structure_t) (opts : options_t) (values : jsobj)
    (k : string) : value :=
  let v := obj_get values k in
  if checkType_off opts then v
  else
    match descriptor_of st k with
    | Some d => if typeof_is v (type d) then v else coalesce (default_ d) VNull
    | None => VUndefined
    end.

(** The effect of the loop of [set] on the row it writes to. *)
Fixpoint assign_row (st : structure_t) (opts : options_t) (r : row)
    (entries : jsobj) : row * option exn :=
  match entries with
  | [] => (r, None)
  | (field, v) :: entries' =>
      match isCorrectType st opts field v with
      | Raise e => (r, Some e)
      | Ok false => assign_row st opts r entries'
      | Ok true => assign_row st opts (assign_prop r field v) entries'
      end
  end.

(** The store a completion leaves behind. *)
Definition leaves (c : completion) (s' : store) : Prop :=
  c = Returned s' ∨ ∃ e, c = Thrown e s'.

(** The call names its identifier. *)
Definition names_id (c : call) : Prop :=
  match c with
  | Add id _ _ | Set_ id _ _ => nullish id = false
  end.

(** The call passes [set] no field under a name inherited from
    [Object.prototype]. *)
Definition ordinary_fields (c : call) : Prop :=
  match c with
  | Add _ _ _ => True
  | Set_ _ values _ => ∀ k v, (k, v) ∈ values → inherited k = false
  end.

(** Two rows share an identifier, under [==]. *)
Definition shares_id (a b : row) : bool := looseEq (prop a "id") (prop b "id").

Definition unique_ids (rows : list row) : Prop :=
  ∀ i j a b, rows !! i = Some a → rows !! j = Some b → i ≠ j → shares_id a b = false.

(** The keys [#structure] produces, field by field. *)
Definition out_names (st : structure_t) : list string :=
  map (λ cd, out_name cd.1 cd.2) st.

Definition no_rename (st : structure_t) : Prop :=
  ∀ k d, (k, d) ∈ st → out_name k d = k.

(** A row with the keys the store gives its rows when nothing is renamed. *)
Definition shaped (st : structure_t) (r : row) : Prop :=
  dom r = {["id"]} ∪ list_to_set (keys st).

(** A value [JSON.stringify] writes and [JSON.parse] reads back, or
    [undefined]. *)
Definition representable (v : value) : bool :=
  match v with
  | VNum NaN | VNum PosInf | VNum NegInf => false
  | _ => true
  end.

Definition row_representable (r : row) : Prop :=
  ∀ k v, r !! k = Some v → representable v = true.

(** The document the constructor parses: the file, or [[]] for a file
    it had to create. *)
Definition loaded (w : world) (dir : string) : document :=
  default [] (files w !! dir).

(** The numerals of the document are integers that a double holds
    exactly, which [JSON.parse] reads as the numbers they write. *)
Definition exact_numeral (j : jval) : bool :=
  match j with
  | JNum z => bool_decide (- 2 ^ 53 ≤ z ≤ 2 ^ 53)%Z
  | _ => true
  end.

Definition exact_numerals (d : document) : Prop :=
  Forall (λ j : gmap string jval, ∀ k x, j !! k = Some x → exact_numeral x = true) d.

(** Every declared default has the declared type. *)
Definition defaults_typed (st : structure_t) : Prop :=
  ∀ k d, (k, d) ∈ st → nullish (default_ d) = false →
         typeof_is (default_ d) (type d) = true.

(** The row holds a finite number under [field]. *)
Definition numeric_on (field : string) (r : row) : Prop :=
  ∃ x, prop r field = num x.

(** The order of two rows by the numbers they hold under [field]. *)
Definition le_on (field : string) (a b : row) : Prop :=
  ∃ x y, prop a field = num x ∧ prop b field = num y ∧ (x ≤ y)%Z.

Definition ge_on (field : string) (a b : row) : Prop := le_on field b a.

End Notions.

(** ** Data of the examples *)

Definition number_field (dflt : value) (rn : option string) : descriptor :=
  {| type := TNumber; default_ := dflt; rename := rn |}.

Definition string_field : descriptor :=
  {| type := TString; default_ := VUndefined; rename := None |}.

(** [{ a: { type: 'number' } }]. *)
Definition schema_a : structure_t := [("a", number_field VUndefined None)].

(** [{ a: { type: 'number' }, b: { type: 'number', default: 0 } }]. *)
Definition schema_ab : structure_t :=
  [("a", number_field VUndefined None); ("b", number_field (num 0) None)].

(** [{ a: { type: 'number', rename: 'b' } }]. *)
Definition schema_renamed : structure_t := [("a", number_field VUndefined (Some "b"))].

(** [{ id: { type: 'number' }, name: { type: 'string' } }]: a schema
    that declares a field named [id]. *)
Definition schema_id_name : structure_t :=
  [("id", number_field VUndefined None); ("name", string_field)].

(** No options given: type-checking on. *)
Definition default_options : options_t :=
  {| checkType := VUndefined; spaces := VUndefined; save_ := None |}.

(** [{ checkType: false }]. *)
Definition unchecked_options : options_t :=
  {| checkType := VBool false; spaces := VUndefined; save_ := None |}.

(** [{ save: { auto: a } }]. *)
Definition autosave_options (a : value) : options_t :=
  {| checkType := VUndefined; spaces := VUndefined;
     save_ := Some {| auto := a; onExit := VUndefined |} |}.

(** [{ field: 'a', order: 'descending' }]. *)
Definition by_a_descending : sort_spec :=
  {| sort_field := Some "a"; sort_order := Some "descending" |}.

Definition row_a (id a : Z) : row := {[ "id" := num id; "a" := num a ]}.

Definition row_ab (id a b : Z) : row :=
  {[ "id" := num id; "a" := num a; "b" := num b ]}.

(** [{id: 1, a: NaN}]. *)
Definition row_a_nan : row := {[ "id" := num 1; "a" := VNum NaN ]}.

(** The store at [store.json] with the given schema, options and rows. *)
Definition store_of (st : structure_t) (opts : options_t) (rows : list row) : store :=
  {| directory := "store.json"; structure := st; options := opts;
     storage := rows; array_id := 0 |}.

(** The flat store at [object.json] with the given options, schema and
    properties. *)
Definition object_of (opts : options_t) (st : option structure_t)
    (o : gmap string value) : ObjectStorage.store :=
  {| ObjectStorage.directory := "object.json"; ObjectStorage.options := opts;
     ObjectStorage.structure := st; ObjectStorage.storage := o;
     ObjectStorage.detached := false |}.

(** No file, timer or handler yet. *)
Definition no_world : world := {| files := ∅; intervals := []; handlers := [] |}.

(** A world whose file [store.json] holds the given document. *)
Definition world_with (d : document) : world :=
  {| files := {[ "store.json" := d ]}; intervals := []; handlers := [] |}.

(** ** The wording of the specification

    The statements of the specification that the code does not meet,
    put as predicates on the inputs at which they are then tested. *)

Section AsSpecified.
Context `{JsRuntime}.

(** "A record's field set is exactly the schema's fields (after
    rename)", next to the identifier. *)
Definition renamed_as_specified (st : structure_t) (r : row) : Prop :=
  dom r = {["id"]} ∪ list_to_set (out_names st).

(** The same of the records [add] creates. *)
Definition add_renames_as_specified (s : store) (id : value) (values : jsobj) : Prop :=
  ∀ s', add s id values [] = Returned s' →
        Forall (renamed_as_specified (structure s)) (storage s').

(** "save() followed by re-loading from the same path yields a sequence
    equal to the pre-save in-memory sequence." *)
Definition round_trip_as_specified (s : store) (w : world) : Prop :=
  storage (construct (save s w) (directory s) (structure s) (options s)).2
  = storage s.

(** The input has a property of that name. *)
Definition supplies (values : jsobj) (k : string) : bool :=
  bool_decide (k ∈ values.*1).

(** "If rawValues supplies a value for that field and the value's
    runtime type matches the declared type (or type-checking is
    disabled by configuration), use it; otherwise use the schema's
    declared default if present, else null." *)
Definition coercion_as_specified (st : structure_t) (opts : options_t)
    (values : jsobj) (r : row) : Prop :=
  ∀ k d, descriptor_of st k = Some d →
    r !! k = Some (if supplies values k
                      && (typeof_is (obj_get values k) (type d) || checkType_off opts)
                   then obj_get values k
                   else coalesce (default_ d) VNull).

(** "For all sequences of add/set calls, no two records in the store
    ever share an id after the calls complete." *)
Definition uniqueness_as_specified (s : store) (calls : list call) : Prop :=
  unique_ids (storage s) →
  ∀ s', run s calls = Returned s' → unique_ids (storage s').

(** "A periodic save is scheduled with period save.auto seconds
    whenever save.auto is a number other than zero, with period 60
    seconds when save.auto is absent or not a number, and no periodic
    save is scheduled when save.auto is exactly zero." *)
Definition autosave_as_specified (opts : options_t) : Prop :=
  let scheduled := intervals (saveAuto opts no_world) in
  match save_auto opts with
  | VNum n => if num_eq n (Fin 0) then scheduled = []
              else scheduled = [num_mul n (Fin 1000)]
  | _ => scheduled = [Fin 60000]
  end.

End AsSpecified.

(** * Properties *)

(** ** Values and objects *)

Section ValueFacts.
Context `{JsRuntime}.

Lemma num_eq_sym a b : num_eq a b = num_eq b a.
Proof.
  destruct a, b; simpl; try reflexivity.
  apply bool_decide_ext. split; congruence.
Qed.

Lemma looseEq_sym a b : looseEq a b = looseEq b a.
Proof.
  destruct a, b; cbv beta iota delta [looseEq];
    try reflexivity; try apply num_eq_sym;
    apply bool_decide_ext; split; congruence.
Qed.


Lemma typeof_is_undefined t : typeof_is VUndefined t = false.
Proof. by destruct t. Qed.




End ValueFacts.

Lemma prop_lookup (r : gmap string value) k v : r !! k = Some v → prop r k = v.
Proof. unfold prop. by intros ->. Qed.

(** An assignment leaves the other properties alone, and creates or
    updates the one it names unless that is the accessor. *)
Lemma lookup_assign_prop_ne (o : gmap string value) k v k' :
  k ≠ k' → assign_prop o k v !! k' = o !! k'.
Proof.
  intros Hne. unfold assign_prop.
  destruct (_ && _); [done|]. by apply lookup_insert_ne.
Qed.

Lemma lookup_assign_prop_eq (o : gmap string value) k v :
  k ≠ "__proto__" → assign_prop o k v !! k = Some v.
Proof.
  intros Hne. unfold assign_prop.
  rewrite (bool_decide_eq_false_2 _ Hne). simpl. apply lookup_insert_eq.
Qed.




Lemma obj_get_elem_of (o : jsobj) k v :
  NoDup o.*1 → (k, v) ∈ o → obj_get o k = v.
Proof.
  induction o as [|[k' v'] o IH]; simpl; intros Hnd Hin.
  - by apply elem_of_nil in Hin.
  - apply NoDup_cons in Hnd as [Hk' Hnd].
    apply elem_of_cons in Hin as [Heq|Hin].
    + inversion Heq; subst. by rewrite bool_decide_eq_true_2.
    + rewrite bool_decide_eq_false_2; [by apply IH|].
      intros ->. apply Hk'. apply list_elem_of_fmap. by exists (k, v).
Qed.

Lemma obj_get_absent (o : jsobj) k : k ∉ o.*1 → obj_get o k = VUndefined.
Proof.
  induction o as [|[k' v'] o IH]; simpl; intros Hk; [done|].
  apply not_elem_of_cons in Hk as [Hne Hk].
  rewrite bool_decide_eq_false_2; [by apply IH | congruence].
Qed.

(** Reading a row back through the list of its entries. *)
Lemma obj_get_map_to_list (r : gmap string value) k :
  obj_get (map_to_list r) k = prop r k.
Proof.
  unfold prop. destruct (r !! k) as [v|] eqn:Hk; simpl.
  - apply obj_get_elem_of; [apply NoDup_fst_map_to_list|].
    by apply elem_of_map_to_list.
  - apply obj_get_absent. intros Hin.
    apply list_elem_of_fmap in Hin as [[k' v'] [-> Hin]].
    apply elem_of_map_to_list in Hin. simpl in *. congruence.
Qed.

(** ** The schema *)

Lemma descriptor_of_keys (st : structure_t) k :
  k ∈ keys st ↔ is_Some (descriptor_of st k).
Proof.
  unfold keys. induction st as [|[k' d] st IH]; simpl.
  - split; [intros Hin; by apply elem_of_nil in Hin | intros [? ?]; done].
  - rewrite elem_of_cons. case_bool_decide; subst.
    + split; eauto.
    + rewrite IH. split; [intros [?|?]; [congruence|done] | eauto].
Qed.


Section CoercionFacts.
Context `{JsRuntime}.
Variable st : structure_t.
Variable opts : options_t.

Lemma isField_keys k : isField st k = true ↔ k ∈ keys st ∨ inherited k = true.
Proof.
  unfold isField. rewrite orb_true_iff, bool_decide_eq_true.
  by rewrite descriptor_of_keys.
Qed.

Lemma isField_declared k : k ∈ keys st → isField st k = true.
Proof. intros Hk. apply isField_keys. by left. Qed.

Lemma isCorrectType_true_field k v :
  isCorrectType st opts k v = Ok true → k ∈ keys st ∨ inherited k = true.
Proof.
  unfold isCorrectType. destruct (checkType_off opts).
  - intros [= Hf]. by apply isField_keys.
  - destruct (descriptor_of st k) eqn:Hd.
    + intros _. left. apply descriptor_of_keys. by rewrite Hd.
    + by destruct (inherited k).
Qed.

(** What [#isCorrectType] raises on: a field that the schema neither
    declares nor inherits, with type-checking on. *)
Lemma isCorrectType_raises k v e :
  isCorrectType st opts k v = Raise e ↔
  checkType_off opts = false ∧ k ∉ keys st ∧ inherited k = false.
Proof.
  unfold isCorrectType. rewrite descriptor_of_keys.
  destruct (checkType_off opts); [split; [done | intros [? _]; done]|].
  destruct (descriptor_of st k) eqn:Hd.
  - split; [done|]. intros (_ & Hn & _). destruct Hn. eauto.
  - destruct e, (inherited k).
    + split; [done | by intros (_ & _ & ?)].
    + split; [|done]. intros _. split_and!; [done| |done]. by intros [? ?].
Qed.

(** With type-checking on, an inherited name that the schema does not
    declare fails the check without raising. *)
Lemma isCorrectType_inherited k v :
  checkType_off opts = false → k ∉ keys st → inherited k = true →
  isCorrectType st opts k v = Ok false.
Proof.
  intros Hoff Hk Hi. unfold isCorrectType. rewrite Hoff.
  destruct (descriptor_of st k) eqn:Hd.
  - destruct Hk. apply descriptor_of_keys. by rewrite Hd.
  - by rewrite Hi.
Qed.

(** The identifier is not an inherited name: only a schema declaring a
    field [id] lets a value for it pass the check. *)
Lemma id_not_inherited : inherited "id" = false.
Proof. vm_compute. reflexivity. Qed.

Lemma isCorrectType_id v :
  "id" ∉ keys st → isCorrectType st opts "id" v ≠ Ok true.
Proof.
  intros Hid Hc. apply isCorrectType_true_field in Hc as [?|Hi]; [done|].
  by rewrite id_not_inherited in Hi.
Qed.

(** With type-checking off, it passes. *)
Lemma isCorrectType_unchecked k v :
  checkType_off opts = true → isCorrectType st opts k v = Ok (isField st k).
Proof. intros Hoff. unfold isCorrectType. by rewrite Hoff. Qed.

Lemma createRow_step_declared values prev k :
  k ∈ keys st →
  createRow_step st opts values (Ok prev) k
  = Ok (<[k := coerced st opts values k]> prev).
Proof.
  intros Hk. pose proof Hk as Hf. apply isField_declared in Hf.
  apply descriptor_of_keys in Hk as [d Hd].
  unfold createRow_step, coerced, isCorrectType. simpl.
  rewrite Hd, Hf. destruct (checkType_off opts); simpl; [done|].
  by destruct (typeof_is _ _).
Qed.

Lemma createRow_fold values l prev :
  l ⊆ keys st →
  foldl (createRow_step st opts values) (Ok prev) l
  = Ok (foldl (λ acc k, <[k := coerced st opts values k]> acc) prev l).
Proof.
  revert prev. induction l as [|k l IH]; intros prev Hl; cbn [foldl]; [done|].
  rewrite createRow_step_declared by (apply Hl; left).
  apply IH. intros x Hx. apply Hl. by right.
Qed.

End CoercionFacts.

Lemma lookup_foldl_insert (f : string → value) (l : list string)
    (acc : gmap string value) k :
  foldl (λ acc k, <[k := f k]> acc) acc l !! k
  = if decide (k ∈ l) then Some (f k) else acc !! k.
Proof.
  revert acc. induction l as [|k' l IH]; intros acc; cbn [foldl].
  - rewrite decide_False; [done | apply not_elem_of_nil].
  - rewrite IH. destruct (decide (k ∈ l)) as [Hl|Hl].
    + rewrite decide_True; [done | by right].
    + destruct (decide (k = k')) as [->|Hne].
      * rewrite lookup_insert_eq. rewrite decide_True; [done | by left].
      * rewrite lookup_insert_ne by done.
        rewrite decide_False; [done|]. by intros [?|?]%elem_of_cons.
Qed.

Section CreateRow.
Context `{JsRuntime}.

(** [#createRow] always returns: it only asks about declared fields. *)
Lemma createRow_returns st opts values :
  createRow st opts values
  = Ok (foldl (λ acc k, <[k := coerced st opts values k]> acc) ∅ (keys st)).
Proof. unfold createRow. by apply createRow_fold. Qed.

Lemma createRow_lookup st opts values r k :
  createRow st opts values = Ok r →
  r !! k = if decide (k ∈ keys st) then Some (coerced st opts values k) else None.
Proof.
  rewrite createRow_returns. intros [= <-].
  rewrite lookup_foldl_insert. by case_decide.
Qed.

Lemma createRow_dom st opts values r :
  createRow st opts values = Ok r → dom r = list_to_set (keys st).
Proof.
  intros Hr. apply set_eq. intros k.
  rewrite elem_of_dom, (createRow_lookup _ _ _ _ k Hr), elem_of_list_to_set.
  case_decide; [split; eauto | split; [intros [? ?]; done | done]].
Qed.

End CreateRow.

(** ** Looking a row up *)

Section Lookup.
Context `{JsRuntime}.

Lemma get_Some s id r :
  get s id = Some r → r ∈ storage s ∧ id_is id r = true.
Proof.
  unfold get. intros Hf. apply find_some in Hf as [Hin Hid].
  split; [by apply list_elem_of_In | done].
Qed.

Lemma get_None s id r :
  get s id = None → r ∈ storage s → id_is id r = false.
Proof.
  unfold get. intros Hf Hin. apply list_elem_of_In in Hin.
  by apply (find_none _ _ Hf).
Qed.

(** [findIndex] points at the row [find] returns. *)
Lemma findIndex_find p rows r :
  List.find p rows = Some r → rows !! findIndex p rows = Some r.
Proof.
  induction rows as [|r0 rows IH]; simpl; [done|].
  destruct (p r0); [done | exact IH].
Qed.

Lemma generateID_free s draws z :
  generateID s draws = Some z → get s (VNum (Fin z)) = None.
Proof.
  induction draws as [|random draws IH]; simpl; [done|].
  destruct (get s (VNum (Fin random))) eqn:Hg; [exact IH|].
  by intros [= <-].
Qed.

(** A free value among the draws is enough for [#generateID] to return. *)
Lemma generateID_returns s draws z :
  z ∈ draws → get s (VNum (Fin z)) = None → is_Some (generateID s draws).
Proof.
  induction draws as [|random draws IH]; simpl; intros Hin Hfree.
  - by apply elem_of_nil in Hin.
  - destruct (get s (VNum (Fin random))) eqn:Hg; [|eauto].
    apply elem_of_cons in Hin as [->|Hin]; [congruence | by apply IH].
Qed.

End Lookup.

(** ** The loop of [set] *)

Section Assign.
Context `{JsRuntime}.
Variable st : structure_t.
Variable opts : options_t.

(** The loop only ever writes to the row at [index]. *)
Lemma assign_entries_row index rows r entries :
  rows !! index = Some r →
  assign_entries st opts index rows entries
  = (<[index := (assign_row st opts r entries).1]> rows,
     (assign_row st opts r entries).2).
Proof.
  revert rows r. induction entries as [|[field v] entries IH]; intros rows r Hr; simpl.
  - by rewrite list_insert_id.
  - destruct (isCorrectType st opts field v) as [[|]|e]; simpl.
    + rewrite Hr.
      rewrite (IH _ (assign_prop r field v)).
      * by rewrite list_insert_insert_eq.
      * apply list_lookup_insert_eq. by eapply lookup_lt_Some.
    + by apply IH.
    + by rewrite list_insert_id.
Qed.

(** A key the loop changed is one that [values] holds with a value
    passing the check. *)
Lemma assign_row_frame r entries k :
  (∀ v, (k, v) ∈ entries → isCorrectType st opts k v ≠ Ok true) →
  (assign_row st opts r entries).1 !! k = r !! k.
Proof.
  revert r. induction entries as [|[field v] entries IH]; intros r Hk; simpl; [done|].
  assert (∀ v0, (k, v0) ∈ entries → isCorrectType st opts k v0 ≠ Ok true) as Hk'.
  { intros v0 Hin. apply Hk. by right. }
  destruct (isCorrectType st opts field v) as [[|]|e] eqn:Hc; simpl; [| by apply IH | done].
  rewrite IH by done. apply lookup_assign_prop_ne. intros ->.
  by apply (Hk v); [left|].
Qed.

(** The loop writes under the names of [values] only. *)
Lemma assign_row_other r entries k :
  k ∉ entries.*1 → (assign_row st opts r entries).1 !! k = r !! k.
Proof.
  intros Hk. apply assign_row_frame. intros v Hin. destruct Hk.
  apply list_elem_of_fmap. by exists (k, v).
Qed.

(** When the loop runs to its end, every entry passing the check has
    been written, the accessor [__proto__] apart. *)
Lemma assign_row_written r entries k v :
  NoDup entries.*1 →
  (assign_row st opts r entries).2 = None →
  (k, v) ∈ entries → isCorrectType st opts k v = Ok true →
  k ≠ "__proto__" →
  (assign_row st opts r entries).1 !! k = Some v.
Proof.
  revert r. induction entries as [|[field v0] entries IH];
    intros r Hnd Hend Hin Hc Hacc.
  - by apply elem_of_nil in Hin.
  - apply NoDup_cons in Hnd as [Hfresh Hnd]. simpl in *.
    apply elem_of_cons in Hin as [Heq|Hin].
    + inversion Heq; subst. rewrite Hc in *.
      rewrite assign_row_frame; [by apply lookup_assign_prop_eq|].
      intros v' Hin'. destruct Hfresh.
      apply list_elem_of_fmap. by exists (field, v').
    + destruct (isCorrectType st opts field v0) as [[|]|e]; simpl in *;
        [by apply IH | by apply IH | done].
Qed.

(** The loop runs to its end when the check raises on no entry. *)
Lemma assign_row_completes r entries :
  (∀ k v, (k, v) ∈ entries → checkType_off opts = true ∨ k ∈ keys st) →
  (assign_row st opts r entries).2 = None.
Proof.
  revert r. induction entries as [|[field v] entries IH]; intros r Hok; simpl; [done|].
  assert (∀ k v0, (k, v0) ∈ entries → checkType_off opts = true ∨ k ∈ keys st) as Hok'.
  { intros k v0 Hin. apply (Hok k v0). by right. }
  destruct (isCorrectType st opts field v) as [[|]|e] eqn:Hc; simpl; [by apply IH..|].
  apply isCorrectType_raises in Hc as (Hoff & Hk & _).
  destruct (Hok field v) as [?|?]; [by left | congruence | done].
Qed.

(** It stops with a [TypeError] at the first field that the schema
    neither declares nor inherits, when type-checking is on. *)
Lemma assign_row_raises r entries k v :
  checkType_off opts = false →
  (k, v) ∈ entries → k ∉ keys st → inherited k = false →
  (assign_row st opts r entries).2 = Some TypeError.
Proof.
  intros Hoff. revert r.
  induction entries as [|[field v0] entries IH]; intros r Hin Hk Hi; simpl.
  - by apply elem_of_nil in Hin.
  - destruct (isCorrectType st opts field v0) as [[|]|[]] eqn:Hc; simpl; [| |done].
    + apply elem_of_cons in Hin as [Heq|Hin]; [|by apply IH].
      inversion Heq; subst.
      apply isCorrectType_true_field in Hc as [?|?]; [done | congruence].
    + apply elem_of_cons in Hin as [Heq|Hin]; [|by apply IH].
      inversion Heq; subst.
      assert (isCorrectType st opts field v0 = Raise TypeError) as Hr
        by by apply isCorrectType_raises.
      congruence.
Qed.

End Assign.

(** ** [set] on a record that exists *)

Section SetExisting.
Context `{JsRuntime}.

Lemma set_existing s id values draws r0 :
  get s id = Some r0 →
  let index := findIndex (id_is id) (storage s) in
  let out := assign_row (structure s) (options s) r0 values in
  storage s !! index = Some r0 ∧
  set s id values draws
  = match out.2 with
    | None => Returned (with_storage s (<[index := out.1]> (storage s)))
    | Some e => Thrown e (with_storage s (<[index := out.1]> (storage s)))
    end.
Proof.
  intros Hg index out.
  assert (storage s !! index = Some r0) as Hi by by apply findIndex_find.
  split; [done|]. unfold set. rewrite Hg. fold index.
  rewrite (assign_entries_row _ _ _ _ r0) by done. fold out.
  by destruct (out.2).
Qed.

Lemma set_existing_leaves s id values draws r0 s' :
  get s id = Some r0 →
  leaves (set s id values draws) s' →
  s' = with_storage s
         (<[findIndex (id_is id) (storage s)
            := (assign_row (structure s) (options s) r0 values).1]> (storage s)).
Proof.
  intros Hg Hl. destruct (set_existing s id values draws r0 Hg) as [_ Hs].
  rewrite Hs in Hl. clear Hs.
  destruct ((assign_row (structure s) (options s) r0 values).2);
    destruct Hl as [Hl|[e' Hl]]; congruence.
Qed.

(** With type-checking on, a field in [values] that the schema neither
    declares nor inherits makes [set] raise. *)
Lemma set_raises_on_undeclared_field s id values draws k v :
  checkType_off (options s) = false →
  is_Some (get s id) →
  (k, v) ∈ values → k ∉ keys (structure s) → inherited k = false →
  ∃ s', set s id values draws = Thrown TypeError s'.
Proof.
  intros Hoff [r0 Hg] Hin Hk Hi.
  destruct (set_existing s id values draws r0 Hg) as [_ ->].
  rewrite (assign_row_raises _ _ _ _ k v) by done. eauto.
Qed.

(** It returns when every field in [values] is declared, or when
    type-checking is off. *)
Lemma set_existing_returns s id values draws :
  is_Some (get s id) →
  (∀ k v, (k, v) ∈ values →
          checkType_off (options s) = true ∨ k ∈ keys (structure s)) →
  ∃ s', set s id values draws = Returned s'.
Proof.
  intros [r0 Hg] Hok.
  destruct (set_existing s id values draws r0 Hg) as [_ ->].
  rewrite assign_row_completes by done. eauto.
Qed.

End SetExisting.

(** ** The calls that cannot raise *)

Section NoRaise.
Context `{JsRuntime}.

Lemma push_row_never_throws s id values draws e s' :
  push_row s id values draws ≠ Thrown e s'.
Proof.
  unfold push_row. rewrite createRow_returns.
  by destruct (if nullish id then _ else _).
Qed.

Lemma add_never_throws s id values draws e s' :
  add s id values draws ≠ Thrown e s'.
Proof.
  unfold add. destruct (get s id); [done | apply push_row_never_throws].
Qed.

(** With an identifier given, [add] returns. *)
Lemma add_returns s id values draws :
  nullish id = false → ∃ s', add s id values draws = Returned s'.
Proof.
  intros Hid. unfold add, push_row. destruct (get s id); [eauto|].
  rewrite Hid, createRow_returns. eauto.
Qed.

End NoRaise.

(** ** Raising on an undeclared field *)

(** C1.  The claim says that [set] ignores a field the schema does not
    declare and returns.  On the store holding [{id: 1, a: 5}] under the
    schema [{a: number}] with type-checking on, [set(1, {b: 7})] does
    not return: [#isCorrectType] destructures [this.structure['b']],
    which is [undefined], and the [TypeError] leaves the call. *)
Theorem set_undeclared_field_raises :
  set (store_of schema_a default_options [row_a 1 5]) (num 1) [("b", num 7)] []
  = Thrown TypeError (store_of schema_a default_options [row_a 1 5]).
Proof. vm_compute. reflexivity. Qed.

(** The branch for type-checking off asks [#isField] alone and does
    ignore the field. *)
Lemma set_undeclared_field_unchecked :
  set (store_of schema_a unchecked_options [row_a 1 5]) (num 1) [("b", num 7)] []
  = Returned (store_of schema_a unchecked_options [row_a 1 5]).
Proof. vm_compute. reflexivity. Qed.

(** A field named after a member of [Object.prototype] is [in] the
    schema.  With type-checking on, the member is destructured, has no
    [type], and the field is skipped without a raise; with
    type-checking off, the field is written to the row. *)
Lemma set_inherited_field :
  set (store_of schema_a default_options [row_a 1 5]) (num 1) [("toString", num 7)] []
    = Returned (store_of schema_a default_options [row_a 1 5]) ∧
  set (store_of schema_a unchecked_options [row_a 1 5]) (num 1)
      [("constructor", num 7)] []
    = Returned (store_of schema_a unchecked_options
                  [ {[ "id" := num 1; "a" := num 5; "constructor" := num 7 ]} ]).
Proof. split; vm_compute; reflexivity. Qed.

(** An assignment under [__proto__] passes the check with type-checking
    off and gives the row no property. *)
Lemma set_proto_creates_nothing :
  isCorrectType schema_a unchecked_options "__proto__" (num 7) = Ok true ∧
  set (store_of schema_a unchecked_options [row_a 1 5]) (num 1) [("__proto__", num 7)] []
    = Returned (store_of schema_a unchecked_options [row_a 1 5]).
Proof. split; vm_compute; reflexivity. Qed.

(** The flat variant raises in the same way. *)
Lemma object_set_undeclared_key_raises :
  ObjectStorage.set (object_of default_options (Some schema_a) ∅) "b" (num 7)
  = Raise TypeError.
Proof. vm_compute. reflexivity. Qed.

(** ** Partial update *)

Section PartialUpdate.
Context `{JsRuntime}.

Lemma set_missing_is_add s id values draws :
  get s id = None → set s id values draws = add s id values draws.
Proof. intros Hg. unfold set, add. by rewrite Hg. Qed.

(** What [add] appends: the coerced row under the identifier. *)
Lemma add_appends s id values draws s' :
  get s id = None →
  add s id values draws = Returned s' →
  ∃ id' r, createRow (structure s) (options s) values = Ok r ∧
           (nullish id = false → id' = id) ∧
           storage s' = (storage s ++ [r ∪ {["id" := id']}])%list.
Proof.
  intros Hg. unfold add, push_row. rewrite Hg.
  destruct (if nullish id then _ else _) as [id'|] eqn:Hid; [|done].
  destruct (createRow _ _ _) as [r|] eqn:Hr; [|done].
  intros [= <-]. exists id', r. split_and!; [done| |done].
  intros Hn. rewrite Hn in Hid. congruence.
Qed.

(** On an identifier that does not exist and is given, [set] returns
    and has appended one row: it holds the identifier, unless the schema
    declares a field of that name, and under every declared field what
    [#createRow] files there, and nothing else. *)
Lemma set_missing_appends s id values draws :
  get s id = None → nullish id = false →
  ∃ r, set s id values draws = Returned (with_storage s (storage s ++ [r])) ∧
       (∀ k, k ∈ keys (structure s) →
             r !! k = Some (coerced (structure s) (options s) values k)) ∧
       ("id" ∉ keys (structure s) → r !! "id" = Some id) ∧
       (∀ k, k ∉ keys (structure s) → k ≠ "id" → r !! k = None).
Proof.
  intros Hg Hid. unfold set, push_row. rewrite Hg, Hid.
  destruct (createRow (structure s) (options s) values) as [r|e] eqn:Hr;
    [|by rewrite createRow_returns in Hr].
  eexists. split; [reflexivity|].
  pose proof (λ k, createRow_lookup _ _ _ _ k Hr) as Hrow.
  split_and!.
  - intros k Hk. apply lookup_union_Some_l. by rewrite Hrow, decide_True.
  - intros Hk. rewrite lookup_union_r; [apply lookup_singleton_eq|].
    by rewrite Hrow, decide_False.
  - intros k Hk Hne. apply lookup_union_None. split.
    + by rewrite Hrow, decide_False.
    + by apply lookup_singleton_ne.
Qed.

(** With type-checking on, a declared field of the appended row that
    [values] does not hold has the declared default, or [null]. *)
Lemma coerced_missing_default st opts values k d :
  checkType_off opts = false → descriptor_of st k = Some d → k ∉ values.*1 →
  coerced st opts values k = coalesce (default_ d) VNull.
Proof.
  intros Hoff Hd Hk. unfold coerced.
  by rewrite Hoff, Hd, obj_get_absent, typeof_is_undefined.
Qed.

(** On an identifier that exists, [set] rewrites one row, where
    [findIndex] points, and leaves every other row as it was, whether it
    returns or raises.  In that row a key keeps its value unless
    [values] holds it with a value passing the type-correctness check;
    when the call returns, every such key holds the value given, the
    accessor [__proto__] apart.  The call returns whenever no field of
    [values] makes the check raise.  On an identifier that does not
    exist, [set] is [add]. *)
Lemma set_partial_update s id values draws :
  (∀ r0, get s id = Some r0 →
     let index := findIndex (id_is id) (storage s) in
     storage s !! index = Some r0 ∧
     ((∀ k v, (k, v) ∈ values →
              checkType_off (options s) = true ∨ k ∈ keys (structure s)) →
      ∃ s', set s id values draws = Returned s') ∧
     ∀ s', leaves (set s id values draws) s' →
       array_id s' = array_id s ∧
       length (storage s') = length (storage s) ∧
       (∀ j, j ≠ index → storage s' !! j = storage s !! j) ∧
       ∃ r', storage s' !! index = Some r' ∧
         (∀ k, (∀ v, (k, v) ∈ values →
                     isCorrectType (structure s) (options s) k v ≠ Ok true) →
               r' !! k = r0 !! k) ∧
         (set s id values draws = Returned s' → NoDup values.*1 →
          ∀ k v, (k, v) ∈ values →
                 isCorrectType (structure s) (options s) k v = Ok true →
                 k ≠ "__proto__" →
                 r' !! k = Some v))
  ∧ (get s id = None →
     set s id values draws = add s id values draws ∧
     ∀ s', set s id values draws = Returned s' →
       ∃ id' r, createRow (structure s) (options s) values = Ok r ∧
                (nullish id = false → id' = id) ∧
                storage s' = (storage s ++ [r ∪ {["id" := id']}])%list).
Proof.
  split.
  - intros r0 Hg index.
    destruct (set_existing s id values draws r0 Hg) as [Hi Hs]. fold index in Hi, Hs.
    split; [done|]. split.
    { intros Hok. apply set_existing_returns; [by rewrite Hg | done]. }
    intros s' Hl. pose proof (set_existing_leaves _ _ _ _ _ _ Hg Hl) as ->.
    fold index. simpl. split; [done|]. split; [by rewrite length_insert|].
    split; [intros j Hj; by apply list_lookup_insert_ne|].
    eexists. split; [apply list_lookup_insert_eq; by eapply lookup_lt_Some|].
    split; [intros k Hk; by apply assign_row_frame|].
    intros Hret Hnd k v Hin Hc Hacc. apply assign_row_written; try done.
    rewrite Hs in Hret.
    by destruct ((assign_row (structure s) (options s) r0 values).2).
  - intros Hg. split; [by apply set_missing_is_add|].
    intros s'. rewrite set_missing_is_add by done. by apply add_appends.
Qed.

End PartialUpdate.

(** The example of the specification: under [{a: number, b: number with
    default 0}], [set(1, {a: 10})] turns [{id: 1, a: 5, b: 0}] into
    [{id: 1, a: 10, b: 0}]; and [set(2, {a: 7})], on an identifier that
    does not exist, is [add(2, {a: 7})]. *)
Lemma set_partial_update_witness :
  get (store_of schema_ab default_options [row_ab 1 5 0]) (num 1)
    = Some (row_ab 1 5 0) ∧
  set (store_of schema_ab default_options [row_ab 1 5 0]) (num 1) [("a", num 10)] []
    = Returned (store_of schema_ab default_options [row_ab 1 10 0]) ∧
  (∃ s', set (store_of schema_ab default_options [row_ab 1 5 0])
             (num 1) [("a", num 10)] [] = Returned s') ∧
  (∃ r', [row_ab 1 10 0] !! 0%nat = Some r' ∧
         r' !! "b" = row_ab 1 5 0 !! "b" ∧ r' !! "a" = Some (num 10)) ∧
  set (store_of schema_ab default_options [row_ab 1 5 0]) (num 2) [("a", num 7)] []
    = add (store_of schema_ab default_options [row_ab 1 5 0]) (num 2) [("a", num 7)] [].
Proof.
  split; [vm_compute; reflexivity|].
  split; [vm_compute; reflexivity|].
  destruct (set_partial_update
              (store_of schema_ab default_options [row_ab 1 5 0])
              (num 1) [("a", num 10)] []) as [Hexists _].
  destruct (Hexists (row_ab 1 5 0)) as (_ & Hreturns & Hframe);
    [vm_compute; reflexivity|].
  split.
  { apply Hreturns. intros k v Hin. right.
    apply list_elem_of_singleton in Hin. injection Hin as -> _.
    vm_compute. by left. }
  split.
  { destruct (Hframe (store_of schema_ab default_options [row_ab 1 10 0]))
      as (_ & _ & _ & r' & Hr' & Hkeep & Hwritten); [left; vm_compute; reflexivity|].
    exists r'. split; [exact Hr'|]. split.
    - apply Hkeep. intros v Hin.
      apply list_elem_of_singleton in Hin. discriminate Hin.
    - apply Hwritten; [vm_compute; reflexivity | apply NoDup_singleton | by left
                      | vm_compute; reflexivity | done]. }
  destruct (set_partial_update
              (store_of schema_ab default_options [row_ab 1 5 0])
              (num 2) [("a", num 7)] []) as [_ Hmissing].
  apply Hmissing. vm_compute. reflexivity.
Defined.

(** C5.  The claim has [set] on an identifier that does not exist
    append a coerced record "with defaults filling missing fields".
    Under [{a: number, b: number with default 0}] and [{checkType:
    false}], the store holding [{id: 1, a: 5, b: 0}] has no row under
    [2], and [set(2, {a: 7})] appends [{id: 2, a: 7, b: undefined}]:
    the default of [b] is not filled in. *)
Theorem unchecked_set_skips_default :
  get (store_of schema_ab unchecked_options [row_ab 1 5 0]) (num 2) = None ∧
  set (store_of schema_ab unchecked_options [row_ab 1 5 0]) (num 2) [("a", num 7)] []
  = Returned (store_of schema_ab unchecked_options
                [ row_ab 1 5 0;
                  {[ "id" := num 2; "a" := num 7; "b" := VUndefined ]} ]).
Proof. split; vm_compute; reflexivity. Qed.

(** With type-checking on, the same call fills the default in. *)
Lemma checked_set_fills_default :
  set (store_of schema_ab default_options [row_ab 1 5 0]) (num 2) [("a", num 7)] []
  = Returned (store_of schema_ab default_options [row_ab 1 5 0; row_ab 2 7 0]).
Proof. vm_compute. reflexivity. Qed.

(** ** Identifier uniqueness *)

Section Uniqueness.
Context `{JsRuntime}.

Lemma unique_ids_nil : unique_ids [].
Proof. intros i j a b Ha. by rewrite lookup_nil in Ha. Qed.

Lemma shares_id_sym a b : shares_id a b = shares_id b a.
Proof. apply looseEq_sym. Qed.

(** Appending a row whose identifier no row has. *)
Lemma unique_ids_snoc rows new :
  unique_ids rows →
  (∀ a, a ∈ rows → shares_id a new = false) →
  unique_ids (rows ++ [new]).
Proof.
  intros Hu Hnew i j a b Ha Hb Hij.
  apply lookup_app_Some in Ha as [Ha|[Hi Ha]];
    apply lookup_app_Some in Hb as [Hb|[Hj Hb]].
  - by apply (Hu i j).
  - apply list_lookup_singleton_Some in Hb as [_ <-].
    apply Hnew. apply list_elem_of_lookup. eauto.
  - apply list_lookup_singleton_Some in Ha as [_ <-].
    rewrite shares_id_sym. apply Hnew. apply list_elem_of_lookup. eauto.
  - apply list_lookup_singleton_Some in Ha as [Hi' _].
    apply list_lookup_singleton_Some in Hb as [Hj' _]. lia.
Qed.

(** Rewriting a row without touching its identifier. *)
Lemma unique_ids_insert rows index r r' :
  unique_ids rows →
  rows !! index = Some r →
  r' !! "id" = r !! "id" →
  unique_ids (<[index := r']> rows).
Proof.
  intros Hu Hr Hid.
  assert (∀ n x, <[index := r']> rows !! n = Some x →
                 ∃ y, rows !! n = Some y ∧ prop x "id" = prop y "id") as Hsame.
  { intros n x Hx. destruct (decide (n = index)) as [->|Hne].
    - rewrite list_lookup_insert_eq in Hx by by eapply lookup_lt_Some.
      injection Hx as <-. exists r. split; [done|]. unfold prop. by rewrite Hid.
    - rewrite list_lookup_insert_ne in Hx by done. eauto. }
  intros i j a b Ha Hb Hij.
  apply Hsame in Ha as (a0 & Ha & Hida). apply Hsame in Hb as (b0 & Hb & Hidb).
  unfold shares_id. rewrite Hida, Hidb. by apply (Hu i j).
Qed.

(** When the schema leaves the name [id] alone, the appended row has the
    identifier chosen for it. *)
Lemma new_row_id st opts values r id' :
  "id" ∉ keys st →
  createRow st opts values = Ok r →
  prop (r ∪ {["id" := id']}) "id" = id'.
Proof.
  intros Hid Hr. apply prop_lookup.
  apply lookup_union_Some_raw. right.
  rewrite (createRow_lookup _ _ _ _ _ Hr), decide_False by done.
  split; [done | apply lookup_singleton_eq].
Qed.

Lemma push_row_unique s id values draws s' :
  "id" ∉ keys (structure s) →
  unique_ids (storage s) →
  get s id = None →
  push_row s id values draws = Returned s' →
  unique_ids (storage s') ∧ structure s' = structure s.
Proof.
  intros Hid Hu Hg. unfold push_row.
  destruct (if nullish id then _ else _) as [id'|] eqn:Hid'; [|done].
  destruct (createRow _ _ _) as [r|] eqn:Hr; [|done].
  intros [= <-]. split; [|done]. simpl.
  assert (get s id' = None) as Hfree.
  { destruct (nullish id).
    - destruct (generateID s draws) as [z|] eqn:Hz; [|done].
      injection Hid' as <-. by apply generateID_free in Hz.
    - by injection Hid' as <-. }
  apply unique_ids_snoc; [done|].
  intros a Ha. unfold shares_id.
  rewrite (new_row_id _ _ _ _ _ Hid Hr).
  by apply (get_None s id' a).
Qed.

Lemma perform_unique s c s' :
  "id" ∉ keys (structure s) →
  unique_ids (storage s) →
  leaves (perform s c) s' →
  unique_ids (storage s') ∧ structure s' = structure s.
Proof.
  intros Hid Hu Hl. destruct c as [id values draws|id values draws]; simpl in Hl.
  - unfold add in Hl. destruct (get s id) eqn:Hg.
    + destruct Hl as [[= <-]|[e [=]]]. done.
    + destruct Hl as [Hl|[e Hl]]; [by eapply push_row_unique|].
      by apply push_row_never_throws in Hl.
  - destruct (get s id) as [r0|] eqn:Hg.
    + destruct (set_existing s id values draws r0 Hg) as [Hi _].
      rewrite (set_existing_leaves _ _ _ _ _ _ Hg Hl). simpl. split; [|done].
      eapply unique_ids_insert; [done..|].
      apply assign_row_frame. intros v _. by apply isCorrectType_id.
    + rewrite set_missing_is_add in Hl by done.
      unfold add in Hl. rewrite Hg in Hl.
      destruct Hl as [Hl|[e Hl]]; [by eapply push_row_unique|].
      by apply push_row_never_throws in Hl.
Qed.

(** C6, amended.  Under a schema that does not declare a field named
    [id], a store in which no two rows share an identifier (compared
    with [==]) is left in such a state by every sequence of [add] and
    [set] calls, with or without identifiers, whether the sequence runs
    to its end or is cut short by an exception. *)
Theorem ids_stay_unique s calls s' :
  "id" ∉ keys (structure s) →
  unique_ids (storage s) →
  leaves (run s calls) s' →
  unique_ids (storage s').
Proof.
  revert s. induction calls as [|c calls IH]; intros s Hid Hu Hl; simpl in Hl.
  - destruct Hl as [[= <-]|[e [=]]]. done.
  - destruct (perform s c) as [s1|e1 s1|] eqn:Hp.
    + destruct (perform_unique s c s1 Hid Hu) as [Hu1 Hst]; [left; done|].
      apply (IH s1); [by rewrite Hst | done | done].
    + destruct Hl as [Hl|[e Hl]]; [done|].
      assert (s1 = s') as -> by congruence.
      apply (perform_unique s c s' Hid Hu). right. eauto.
    + destruct Hl as [[=]|[e [=]]].
Qed.

(** A sequence of calls that all name their identifier runs to its end
    or to an exception: only [#generateID] can keep a call waiting. *)
Lemma perform_completes s c :
  names_id c → ∃ s', leaves (perform s c) s'.
Proof.
  destruct c as [id values draws|id values draws]; simpl; intros Hid.
  - destruct (add_returns s id values draws Hid) as [s' Hs']. exists s'. by left.
  - destruct (get s id) as [r0|] eqn:Hg.
    + destruct (set_existing s id values draws r0 Hg) as [_ ->].
      destruct ((assign_row _ _ _ _).2); eexists; [right|left]; eauto.
    + rewrite set_missing_is_add by done.
      destruct (add_returns s id values draws Hid) as [s' Hs']. exists s'. by left.
Qed.

Lemma run_completes s calls :
  Forall names_id calls → ∃ s', leaves (run s calls) s'.
Proof.
  revert s. induction calls as [|c calls IH]; intros s Hids; simpl.
  - exists s. by left.
  - apply Forall_cons in Hids as [Hc Hids].
    destruct (perform_completes s c Hc) as [s1 [Hs1|[e Hs1]]]; rewrite Hs1.
    + by apply IH.
    + exists s1. right. eauto.
Qed.

End Uniqueness.

(** Two [add] calls, the second without an identifier, on the store
    holding [{id: 1, a: 5}]; the first draw, [1], is taken and the
    second, [7], is used. *)
Lemma ids_stay_unique_witness :
  run (store_of schema_a default_options [row_a 1 5])
      [Add (num 2) [("a", num 7)] []; Add VUndefined [] [1; 7]]
  = Returned (store_of schema_a default_options
                [row_a 1 5; row_a 2 7; {[ "id" := num 7; "a" := VNull ]}]) ∧
  unique_ids [row_a 1 5; row_a 2 7; {[ "id" := num 7; "a" := VNull ]}].
Proof.
  split; [vm_compute; reflexivity|].
  apply (ids_stay_unique (store_of schema_a default_options [row_a 1 5])
           [Add (num 2) [("a", num 7)] []; Add VUndefined [] [1; 7]]
           (store_of schema_a default_options
              [row_a 1 5; row_a 2 7; {[ "id" := num 7; "a" := VNull ]}])).
  - vm_compute. intros Hin. inversion Hin as [|? ? ? Hin']; subst. inversion Hin'.
  - intros [|i] [|j] a b Ha Hb Hij; try done;
      rewrite ?lookup_nil in Ha, Hb; simpl in *; try done.
  - left. vm_compute. reflexivity.
Defined.

(** C6 as stated fails under a schema that declares a field named [id]:
    the spread of the coerced row comes after the identifier and
    overwrites it.  Under [{id: number, name: string}], [add(5, {name:
    'x'})] and [add(6, {name: 'y'})] leave two rows whose [id] is
    [null]. *)
Lemma declared_id_field_breaks_uniqueness :
  ¬ uniqueness_as_specified (store_of schema_id_name default_options [])
      [Add (num 5) [("name", VStr "x")] []; Add (num 6) [("name", VStr "y")] []].
Proof.
  intros Hclaim.
  specialize (Hclaim unique_ids_nil
    (store_of schema_id_name default_options
       [ {[ "id" := VNull; "name" := VStr "x" ]};
         {[ "id" := VNull; "name" := VStr "y" ]} ])).
  assert (shares_id ({[ "id" := VNull; "name" := VStr "x" ]} : gmap string value)
                    {[ "id" := VNull; "name" := VStr "y" ]} = false) as Habs.
  { apply (Hclaim ltac:(vm_compute; reflexivity) 0%nat 1%nat); [done | done | lia]. }
  vm_compute in Habs. discriminate Habs.
Qed.

(** ** Normalising at load time *)

Section Structure.
Context `{JsRuntime}.

Lemma structured_dom r st (acc : gmap string value) :
  dom (foldl (structure_step r) acc st) = dom acc ∪ list_to_set (out_names st).
Proof.
  revert acc. induction st as [|[k d] st IH]; intros acc; cbn [foldl out_names map].
  - set_solver.
  - rewrite IH. unfold structure_step. rewrite dom_insert_L.
    cbn [list_to_set fst snd]. fold (out_names st). set_solver.
Qed.

Lemma structured_lookup_other r st (acc : gmap string value) k :
  k ∉ out_names st → foldl (structure_step r) acc st !! k = acc !! k.
Proof.
  revert acc. induction st as [|[k0 d0] st IH]; intros acc Hk; cbn [foldl]; [done|].
  cbn [out_names map] in Hk. apply not_elem_of_cons in Hk as [Hne Hk].
  rewrite IH by done. unfold structure_step. by rewrite lookup_insert_ne.
Qed.

Lemma structured_lookup r st (acc : gmap string value) k d :
  NoDup (out_names st) → (k, d) ∈ st →
  foldl (structure_step r) acc st !! out_name k d = Some (prop r k).
Proof.
  revert acc. induction st as [|[k0 d0] st IH]; intros acc Hnd Hin; cbn [foldl].
  - by apply elem_of_nil in Hin.
  - cbn [out_names map] in Hnd. apply NoDup_cons in Hnd as [Hfresh Hnd].
    apply elem_of_cons in Hin as [Heq|Hin]; [|by apply IH].
    inversion Heq; subst.
    rewrite structured_lookup_other by done.
    unfold structure_step. apply lookup_insert_eq.
Qed.

Lemma structure_row_dom st r :
  dom (structure_row st r) = {["id"]} ∪ list_to_set (out_names st).
Proof.
  unfold structure_row. rewrite dom_union_L, structured_dom, dom_singleton_L.
  set_solver.
Qed.

Lemma structure_row_lookup st r k d :
  NoDup (out_names st) → (k, d) ∈ st →
  structure_row st r !! out_name k d = Some (prop r k).
Proof.
  intros Hnd Hin. unfold structure_row.
  apply lookup_union_Some_raw. left. by apply structured_lookup.
Qed.

Lemma no_rename_out_names st : no_rename st → out_names st = keys st.
Proof.
  unfold no_rename, out_names, keys. induction st as [|[k d] st IH]; intros Hn; [done|].
  cbn [map fmap list_fmap]. f_equal.
  - apply Hn. by left.
  - apply IH. intros k' d' Hin. apply Hn. by right.
Qed.

Lemma structured_no_rename r st (acc : gmap string value) :
  no_rename st →
  foldl (structure_step r) acc st
  = foldl (λ acc k, <[k := prop r k]> acc) acc (keys st).
Proof.
  unfold keys. revert acc. induction st as [|[k d] st IH]; intros acc Hn; [done|].
  cbn [foldl fmap list_fmap]. rewrite IH.
  - unfold structure_step. cbn [fst snd]. rewrite (Hn k d); [done | by left].
  - intros k' d' Hin. apply Hn. by right.
Qed.

(** Without renames a loaded row is the identifier and the declared
    fields, each with what the file holds for it. *)
Lemma structure_row_no_rename st r k :
  no_rename st →
  structure_row st r !! k
  = if decide (k ∈ keys st ∨ k = "id") then Some (prop r k) else None.
Proof.
  intros Hn. unfold structure_row. rewrite structured_no_rename by done.
  set (m := foldl _ _ _).
  assert (m !! k = if decide (k ∈ keys st) then Some (prop r k) else None) as Hm.
  { unfold m. rewrite lookup_foldl_insert. by rewrite lookup_empty. }
  destruct (decide (k ∈ keys st)) as [Hin|Hin].
  - rewrite (lookup_union_Some_l _ _ _ _ Hm). rewrite decide_True; [done | by left].
  - rewrite lookup_union_r by done.
    destruct (decide (k = "id")) as [->|Hne].
    + rewrite lookup_singleton_eq. rewrite decide_True; [done | by right].
    + rewrite lookup_singleton_ne by done. rewrite decide_False; [done|].
      by intros [?|?].
Qed.

End Structure.

(** ** What the constructor reads *)

Section Construct.
Context `{JsRuntime}.

Lemma files_saveAuto opts w : files (saveAuto opts w) = files w.
Proof.
  unfold saveAuto. destruct (looseEq _ _); [done|].
  by destruct (typeof _).
Qed.

Lemma files_saveOnExit opts w : files (saveOnExit opts w) = files w.
Proof.
  unfold saveOnExit. destruct (looseEq _ (VBool false)); [done|].
  by destruct (_ || _).
Qed.

Lemma construct_storage w dir st opts :
  storage (construct w dir st opts).2 = map (structure_row st) (parse (loaded w dir)).
Proof.
  unfold construct. cbn [snd storage].
  rewrite files_saveOnExit, files_saveAuto. unfold loaded, createFile.
  destruct (files w !! dir) as [d|] eqn:Hd; [by rewrite Hd|].
  cbn [files]. by rewrite lookup_insert_eq.
Qed.

End Construct.

(** ** Renaming *)

Section Rename.
Context `{JsRuntime}.

(** C2, amended.  A rename is applied where the file is normalised, and
    nowhere else.  Every row the constructor builds has the keys [id]
    and the fields under their new names and, when these names are
    distinct, holds under the new name what the file holds under the
    original one.  A row created by [add], or by [set] on an identifier
    that does not exist, has the keys [id] and the fields under their
    original names, each with its coerced value. *)
Theorem rename_applies_at_load_only st :
  (∀ w dir opts r, r ∈ storage (construct w dir st opts).2 →
     dom r = {["id"]} ∪ list_to_set (out_names st)) ∧
  (NoDup (out_names st) →
   ∀ w dir opts i r, storage (construct w dir st opts).2 !! i = Some r →
     ∃ raw, parse (loaded w dir) !! i = Some raw ∧
            ∀ k d, (k, d) ∈ st → r !! out_name k d = Some (prop raw k)) ∧
  (∀ s id values draws s',
     structure s = st → get s id = None →
     add s id values draws = Returned s' ∨ set s id values draws = Returned s' →
     ∃ r, storage s' = (storage s ++ [r])%list ∧
          dom r = {["id"]} ∪ list_to_set (keys st) ∧
          ∀ k, k ∈ keys st → r !! k = Some (coerced st (options s) values k)).
Proof.
  split_and!.
  - intros w dir opts r. rewrite construct_storage.
    intros Hin. apply list_elem_of_fmap in Hin as (raw & -> & _).
    apply structure_row_dom.
  - intros Hnd w dir opts i r. rewrite construct_storage, list_lookup_fmap.
    destruct (parse (loaded w dir) !! i) as [raw|]; [|done].
    intros [= <-]. exists raw. split; [done|].
    intros k d Hin. by apply structure_row_lookup.
  - intros s id values draws s' <- Hg Hcall.
    rewrite set_missing_is_add in Hcall by done.
    assert (add s id values draws = Returned s') as Hadd by by destruct Hcall.
    destruct (add_appends _ _ _ _ _ Hg Hadd) as (id' & r & Hr & _ & Hs').
    exists (r ∪ {["id" := id']}). split; [done|]. split.
    + rewrite dom_union_L, (createRow_dom _ _ _ _ Hr), dom_singleton_L. set_solver.
    + intros k Hk. apply lookup_union_Some_raw. left.
      rewrite (createRow_lookup _ _ _ _ _ Hr). by rewrite decide_True.
Qed.

End Rename.

(** Under [{a: {type: 'number', rename: 'b'}}] the file row [{id: 1, a:
    5}] is loaded as [{id: 1, b: 5}], and the row [add(2, {a: 7})]
    appends has the keys [id] and [a]. *)
Lemma rename_applies_at_load_only_witness :
  storage (construct (world_with [ {[ "id" := JNum 1; "a" := JNum 5 ]} ])
             "store.json" schema_renamed default_options).2
    = [ {[ "id" := num 1; "b" := num 5 ]} ] ∧
  (∃ raw, parse (loaded (world_with [ {[ "id" := JNum 1; "a" := JNum 5 ]} ])
                   "store.json") !! 0%nat = Some raw ∧
          ({[ "id" := num 1; "b" := num 5 ]} : gmap string value) !! "b"
            = Some (prop raw "a")) ∧
  ∃ r, [row_a 2 7] = ([] ++ [r])%list ∧
       dom r = {["id"]} ∪ list_to_set (keys schema_renamed).
Proof.
  split; [vm_compute; reflexivity|].
  destruct (rename_applies_at_load_only schema_renamed) as (_ & Hload & Hnew).
  split.
  - destruct (Hload ltac:(vm_compute; apply NoDup_singleton)
                (world_with [ {[ "id" := JNum 1; "a" := JNum 5 ]} ])
                "store.json" default_options 0%nat
                ({[ "id" := num 1; "b" := num 5 ]} : gmap string value))
      as (raw & Hraw & Hval); [vm_compute; reflexivity|].
    exists raw. split; [exact Hraw|].
    apply (Hval "a" (number_field VUndefined (Some "b"))).
    apply list_elem_of_singleton. reflexivity.
  - destruct (Hnew (store_of schema_renamed default_options [])
                (num 2) [("a", num 7)] []
                (store_of schema_renamed default_options [row_a 2 7]))
      as (r & Hr & Hdom & _);
      [reflexivity | vm_compute; reflexivity | left; vm_compute; reflexivity|].
    exists r. split; [exact Hr | exact Hdom].
Defined.

(** C2 as stated fails for the rows [add] creates: under the same
    schema, [add(1, {a: 5})] appends [{id: 1, a: 5}], with the field
    under its original name. *)
Lemma add_ignores_rename :
  add (store_of schema_renamed default_options []) (num 1) [("a", num 5)] []
    = Returned (store_of schema_renamed default_options [row_a 1 5]) ∧
  ¬ add_renames_as_specified (store_of schema_renamed default_options [])
      (num 1) [("a", num 5)].
Proof.
  split; [vm_compute; reflexivity|].
  intros Hclaim.
  specialize (Hclaim (store_of schema_renamed default_options [row_a 1 5])
                ltac:(vm_compute; reflexivity)).
  apply Forall_inv in Hclaim. unfold renamed_as_specified in Hclaim.
  assert ("a" ∈ dom (row_a 1 5)) as Ha.
  { apply elem_of_dom. exists (num 5). vm_compute. reflexivity. }
  rewrite Hclaim in Ha. vm_compute in Ha. discriminate Ha.
Qed.

(** ** Saving and loading again *)

Lemma to_json_of_json v :
  representable v = true → default VUndefined (of_json <$> to_json v) = v.
Proof. destruct v as [| | |[]|]; simpl; done. Qed.

(** A property read back from the file. *)
Lemma prop_parse_stringify (r : gmap string value) k :
  row_representable r →
  prop (parse_row (stringify_row r)) k = prop r k.
Proof.
  intros Hrep. unfold prop, parse_row, stringify_row.
  rewrite lookup_fmap, lookup_omap.
  destruct (r !! k) as [v|] eqn:Hk; simpl; [|done].
  apply to_json_of_json. by apply (Hrep k).
Qed.

Section RoundTrip.
Context `{JsRuntime}.

Lemma reload_row st r :
  no_rename st → shaped st r → row_representable r →
  structure_row st (parse_row (stringify_row r)) = r.
Proof.
  intros Hn Hs Hrep. apply map_eq. intros k.
  rewrite structure_row_no_rename by done.
  rewrite prop_parse_stringify by done.
  assert (k ∈ dom r ↔ k ∈ keys st ∨ k = "id") as Hdom.
  { rewrite Hs. rewrite elem_of_union, elem_of_singleton, elem_of_list_to_set. tauto. }
  case_decide as Hk.
  - apply Hdom in Hk. apply elem_of_dom in Hk as [v Hv].
    rewrite Hv. f_equal. by apply prop_lookup.
  - symmetry. apply not_elem_of_dom. by rewrite Hdom.
Qed.

(** C3, amended.  When the schema renames no field and no row holds
    [NaN] or an infinity, saving a store whose rows have the keys [id]
    and the declared fields, and constructing a store again from the
    same path with the same schema and options, gives the sequence that
    was in memory. *)
Theorem save_then_reload s w :
  no_rename (structure s) →
  Forall (shaped (structure s)) (storage s) →
  Forall row_representable (storage s) →
  storage (construct (save s w) (directory s) (structure s) (options s)).2
  = storage s.
Proof.
  intros Hn Hshape Hrep. rewrite construct_storage.
  unfold loaded, save. cbn [files]. rewrite lookup_insert_eq.
  cbn [default from_option]. unfold parse, stringify, id.
  revert Hshape Hrep. generalize (storage s) as rows.
  induction rows as [|r rows IH]; intros Hshape Hrep; [done|].
  apply Forall_cons in Hshape as [Hr Hshape].
  apply Forall_cons in Hrep as [Hrr Hrep].
  cbn [map]. rewrite reload_row by done. f_equal. by apply IH.
Qed.

(** The rows of a store have that shape: the constructor builds them
    so when nothing is renamed, and the mutations keep it. *)
Lemma construct_shaped w dir st opts :
  no_rename st → Forall (shaped st) (storage (construct w dir st opts).2).
Proof.
  intros Hn. rewrite construct_storage. apply Forall_forall. intros r Hin.
  apply list_elem_of_fmap in Hin as (raw & -> & _).
  unfold shaped. by rewrite structure_row_dom, no_rename_out_names.
Qed.

Lemma assign_row_dom st opts (r : gmap string value) entries :
  list_to_set (keys st) ⊆ dom r →
  (∀ k v, (k, v) ∈ entries → inherited k = false) →
  dom (assign_row st opts r entries).1 = dom r.
Proof.
  revert r. induction entries as [|[field v] entries IH]; intros r Hsub Hord; simpl; [done|].
  assert (∀ k v0, (k, v0) ∈ entries → inherited k = false) as Hord'.
  { intros k v0 Hin. apply (Hord k v0). by right. }
  destruct (isCorrectType st opts field v) as [[|]|e] eqn:Hc; simpl; [|by apply IH|done].
  apply isCorrectType_true_field in Hc as [Hc|Hc];
    [|rewrite (Hord field v) in Hc; [done | by left]].
  assert (field ∈ dom r) as Hf by (apply Hsub; by apply elem_of_list_to_set).
  assert (dom (assign_prop r field v) = dom r) as Hdom.
  { unfold assign_prop. destruct (_ && _); [done|]. rewrite dom_insert_L. set_solver. }
  rewrite IH; [done | by rewrite Hdom | done].
Qed.

(** [add] keeps the shape, and so does a [set] that is passed no
    inherited name.  (With type-checking off, [set(id, {toString: 1})]
    gives the row a property [toString].) *)
Lemma perform_shaped s c s' :
  ordinary_fields c →
  Forall (shaped (structure s)) (storage s) →
  leaves (perform s c) s' →
  Forall (shaped (structure s')) (storage s') ∧ structure s' = structure s.
Proof.
  intros Hord Hshape Hl.
  assert (∀ id values draws,
            get s id = None → leaves (add s id values draws) s' →
            Forall (shaped (structure s')) (storage s') ∧ structure s' = structure s)
    as Hadd.
  { intros id values draws Hg [Hr|[e He]]; [|by apply add_never_throws in He].
    destruct (add_appends _ _ _ _ _ Hg Hr) as (id' & r & Hcr & _ & Hs').
    assert (structure s' = structure s) as Hst.
    { unfold add, push_row in Hr. rewrite Hg in Hr.
      destruct (if nullish id then _ else _); [|done].
      destruct (createRow _ _ _); [|done]. by injection Hr as <-. }
    split; [|done]. rewrite Hs', Hst. apply Forall_app. split; [done|].
    apply Forall_singleton. unfold shaped.
    rewrite dom_union_L, (createRow_dom _ _ _ _ Hcr), dom_singleton_L. set_solver. }
  destruct c as [id values draws|id values draws]; simpl in Hl.
  - destruct (get s id) eqn:Hg; [|by eapply Hadd].
    unfold add in Hl. rewrite Hg in Hl. destruct Hl as [Hl|[e Hl]]; [|done].
    by injection Hl as <-.
  - destruct (get s id) as [r0|] eqn:Hg.
    + destruct (set_existing s id values draws r0 Hg) as [Hi _].
      rewrite (set_existing_leaves _ _ _ _ _ _ Hg Hl). simpl. split; [|done].
      assert (shaped (structure s) r0) as Hr0.
      { eapply Forall_lookup_1; [exact Hshape | exact Hi]. }
      apply Forall_insert; [done|]. unfold shaped.
      rewrite assign_row_dom; [done| |done]. rewrite Hr0. set_solver.
    + rewrite set_missing_is_add in Hl by done. by eapply Hadd.
Qed.

Lemma clear_shaped s : Forall (shaped (structure (clear s))) (storage (clear s)).
Proof. constructor. Qed.

Lemma delete_shaped s id :
  Forall (shaped (structure s)) (storage s) →
  Forall (shaped (structure (delete_ s id))) (storage (delete_ s id)).
Proof.
  intros Hshape. simpl. apply Forall_forall. intros r Hin.
  apply list_elem_of_In, filter_In in Hin as [Hin _].
  eapply Forall_forall; [exact Hshape|]. by apply list_elem_of_In.
Qed.

End RoundTrip.

(** Saving [{id: 1, a: 5}] and loading it again. *)
Lemma save_then_reload_witness :
  storage (construct (save (store_of schema_a default_options [row_a 1 5]) no_world)
             "store.json" schema_a default_options).2
  = [row_a 1 5].
Proof.
  apply (save_then_reload (store_of schema_a default_options [row_a 1 5]) no_world).
  - intros k d Hin. apply list_elem_of_singleton in Hin.
    injection Hin as -> ->. reflexivity.
  - apply Forall_singleton. unfold shaped. vm_compute. reflexivity.
  - apply Forall_singleton.
    change (map_Forall (λ _ v, representable v = true) (row_a 1 5)).
    apply (bool_decide_unpack _). vm_compute. reflexivity.
Defined.

(** C3 as stated fails on a store holding [NaN], which passes the type
    check for a number: [add(1, {a: NaN})] creates [{id: 1, a: NaN}],
    [JSON.stringify] writes [null] for it, and the store constructed
    from the file holds [{id: 1, a: null}]. *)
Lemma nan_is_not_reloaded :
  add (store_of schema_a default_options []) (num 1) [("a", VNum NaN)] []
    = Returned (store_of schema_a default_options [row_a_nan]) ∧
  ¬ round_trip_as_specified (store_of schema_a default_options [row_a_nan]) no_world.
Proof.
  split; [vm_compute; reflexivity|].
  unfold round_trip_as_specified. vm_compute. discriminate.
Qed.

(** It fails as well on a store whose schema renames a field: the row
    [{id: 1, b: 5}], loaded from [{id: 1, a: 5}] under the rename of [a]
    to [b], is saved with the key [b] and loaded again from the key [a],
    which the file no longer has. *)
Lemma renamed_field_is_not_reloaded :
  storage (construct
             (save (store_of schema_renamed default_options
                      [ {[ "id" := num 1; "b" := num 5 ]} ]) no_world)
             "store.json" schema_renamed default_options).2
  = [ {[ "id" := num 1; "b" := VUndefined ]} ].
Proof. vm_compute. reflexivity. Qed.

(** ** The coercion contract *)

Section Contract.
Context `{JsRuntime}.

(** What [#createRow] does.  It always returns, and the row has the
    declared fields as keys.  With type-checking on, a field holds what
    the input has under its name when that has the declared type, and
    the declared default, else [null], when it has not or is missing.
    With type-checking off, a field holds whatever reading the input
    under its name gives, which is [undefined] when the input has no
    such property; the default is not consulted. *)
Lemma coercion_contract st opts values :
  ∃ r, createRow st opts values = Ok r ∧
       dom r = list_to_set (keys st) ∧
       ∀ k d, descriptor_of st k = Some d →
         r !! k = Some (if checkType_off opts then obj_get values k
                        else if typeof_is (obj_get values k) (type d)
                             then obj_get values k
                             else coalesce (default_ d) VNull).
Proof.
  eexists. split; [apply createRow_returns|]. split.
  - eapply createRow_dom. apply createRow_returns.
  - intros k d Hd. rewrite lookup_foldl_insert.
    rewrite decide_True by (apply descriptor_of_keys; by rewrite Hd).
    unfold coerced. by rewrite Hd.
Qed.

(** Coercing a coerced row changes nothing, whatever the defaults. *)
Lemma createRow_fixed_point st opts values r :
  createRow st opts values = Ok r →
  createRow st opts (map_to_list r) = Ok r.
Proof.
  intros Hr. rewrite createRow_returns. f_equal. apply map_eq. intros k.
  rewrite lookup_foldl_insert, lookup_empty, (createRow_lookup _ _ _ _ k Hr).
  case_decide as Hk; [|done]. f_equal.
  assert (obj_get (map_to_list r) k = coerced st opts values k) as Hread.
  { rewrite obj_get_map_to_list. apply prop_lookup.
    rewrite (createRow_lookup _ _ _ _ k Hr). by rewrite decide_True. }
  unfold coerced at 1. rewrite Hread. unfold coerced.
  destruct (checkType_off opts); [done|].
  destruct (descriptor_of st k) as [d|]; [|done].
  destruct (typeof_is (obj_get values k) (type d)) eqn:Ht; [by rewrite Ht|].
  by destruct (typeof_is (coalesce (default_ d) VNull) (type d)).
Qed.

(** C8.  Under a schema whose declared defaults have the declared
    types, coercing the row that coercion produced gives that row
    again.  (The proof does not need the hypothesis on the defaults:
    [createRow_fixed_point].) *)
Theorem coercion_idempotent st opts values r :
  defaults_typed st →
  createRow st opts values = Ok r →
  createRow st opts (map_to_list r) = Ok r.
Proof. intros _. apply createRow_fixed_point. Qed.

(** With type-checking on the code does what the wording says. *)
Lemma checked_coercion_as_specified st opts values r :
  checkType_off opts = false →
  createRow st opts values = Ok r →
  coercion_as_specified st opts values r.
Proof.
  intros Hoff Hr k d Hd.
  rewrite (createRow_lookup _ _ _ _ k Hr).
  rewrite decide_True by (apply descriptor_of_keys; by rewrite Hd).
  unfold coerced. rewrite Hoff, Hd, orb_false_r. f_equal.
  unfold supplies. case_bool_decide as Hk; [done|].
  by rewrite obj_get_absent, typeof_is_undefined.
Qed.

End Contract.

(** Coercing [{a: 'bad'}] under [{a: number, b: number with default 0}]
    gives [{a: null, b: 0}], and coercing that gives it again. *)
Lemma coercion_idempotent_witness :
  createRow schema_ab default_options [("a", VStr "bad")]
    = Ok ({[ "a" := VNull; "b" := num 0 ]} : gmap string value) ∧
  createRow schema_ab default_options
    (map_to_list ({[ "a" := VNull; "b" := num 0 ]} : gmap string value))
    = Ok ({[ "a" := VNull; "b" := num 0 ]} : gmap string value).
Proof.
  split; [vm_compute; reflexivity|].
  apply (coercion_idempotent schema_ab default_options [("a", VStr "bad")]).
  - intros k d Hin Hdflt.
    apply elem_of_cons in Hin as [Hin|Hin]; [by injection Hin as -> ->|].
    apply list_elem_of_singleton in Hin. by injection Hin as -> ->.
  - vm_compute. reflexivity.
Defined.

(** Under [{a: number, b: number with default 0}], with type-checking
    on, the input [{a: 7}] is coerced to [{a: 7, b: 0}]. *)
Lemma coercion_contract_witness :
  ∃ r, createRow schema_ab default_options [("a", num 7)] = Ok r ∧
       r !! "a" = Some (num 7) ∧ r !! "b" = Some (num 0).
Proof.
  destruct (coercion_contract schema_ab default_options [("a", num 7)])
    as (r & Hr & _ & Hfields).
  exists r. split; [exact Hr|]. split.
  - exact (Hfields "a" (number_field VUndefined None) eq_refl).
  - exact (Hfields "b" (number_field (num 0) None) eq_refl).
Defined.

(** C4.  The claim has a declared field that the input does not supply
    take the declared default, whatever the [checkType] option.  Under
    [{a: number, b: number with default 0}] and [{checkType: false}],
    the input [{a: 7}] is coerced to [{a: 7, b: undefined}]:
    [#isCorrectType] answers [#isField('b')], which is true, so
    [#createRow] files [values['b']], that is [undefined], and does not
    reach [default ?? null]. *)
Theorem unchecked_coercion_skips_default :
  createRow schema_ab unchecked_options [("a", num 7)]
    = Ok ({[ "a" := num 7; "b" := VUndefined ]} : gmap string value) ∧
  ¬ coercion_as_specified schema_ab unchecked_options [("a", num 7)]
      {[ "a" := num 7; "b" := VUndefined ]}.
Proof.
  split; [vm_compute; reflexivity|].
  intros Hclaim.
  specialize (Hclaim "b" (number_field (num 0) None) eq_refl).
  vm_compute in Hclaim. discriminate Hclaim.
Qed.

(** The same through [add]. *)
Lemma unchecked_add_skips_default :
  add (store_of schema_ab unchecked_options []) (num 2) [("a", num 7)] []
  = Returned (store_of schema_ab unchecked_options
                [ {[ "id" := num 2; "a" := num 7; "b" := VUndefined ]} ]).
Proof. vm_compute. reflexivity. Qed.

(** With type-checking on, the same call fills the default in. *)
Lemma checked_add_fills_default :
  add (store_of schema_ab default_options []) (num 2) [("a", num 7)] []
  = Returned (store_of schema_ab default_options [row_ab 2 7 0]).
Proof. vm_compute. reflexivity. Qed.

(** The type-mismatch fallback of the specification: [add(3, {a:
    'bad'})] files [null] under [a]. *)
Lemma mistyped_value_falls_back :
  add (store_of schema_ab default_options []) (num 3) [("a", VStr "bad")] []
  = Returned (store_of schema_ab default_options
                [ {[ "id" := num 3; "a" := VNull; "b" := num 0 ]} ]).
Proof. vm_compute. reflexivity. Qed.

(** ** Sorting *)

Section InsertionSort.
Variable cmp : row → row → number.

Lemma sort_insert_perm x l : sort_insert cmp x l ≡ₚ x :: l.
Proof.
  induction l as [|y l IH]; simpl; [done|].
  destruct (num_pos (cmp x y)); [|done].
  rewrite IH. apply Permutation_swap.
Qed.

Lemma array_sort_perm l : array_sort cmp l ≡ₚ l.
Proof.
  induction l as [|x l IH]; simpl; [done|].
  fold (array_sort cmp l). by rewrite sort_insert_perm, IH.
Qed.

(** The sort orders by any transitive relation that the comparator
    decides on the rows at hand. *)
Variable P : row → Prop.
Variable R : row → row → Prop.
Hypothesis R_trans : ∀ x y z, R x y → R y z → R x z.
Hypothesis cmp_pos : ∀ x y, P x → P y → num_pos (cmp x y) = true → R y x.
Hypothesis cmp_not_pos : ∀ x y, P x → P y → num_pos (cmp x y) = false → R x y.

Lemma sort_insert_sorted x l :
  P x → Forall P l → StronglySorted R l → StronglySorted R (sort_insert cmp x l).
Proof.
  intros Hx Hl Hs. induction Hs as [|y l Hs IH Hy]; simpl.
  - repeat constructor.
  - apply Forall_cons in Hl as [HPy Hl].
    destruct (num_pos (cmp x y)) eqn:Hc.
    + constructor; [by apply IH|].
      rewrite sort_insert_perm. constructor; [by apply cmp_pos | done].
    + assert (R x y) as Hxy by by apply cmp_not_pos.
      constructor; [by constructor|].
      constructor; [done|]. eapply Forall_impl; [exact Hy|].
      intros z Hz. by eapply R_trans.
Qed.

Lemma array_sort_sorted l : Forall P l → StronglySorted R (array_sort cmp l).
Proof.
  induction l as [|x l IH]; simpl; intros Hl; [constructor|].
  apply Forall_cons in Hl as [Hx Hl]. fold (array_sort cmp l).
  apply sort_insert_sorted; [done| |by apply IH].
  by rewrite array_sort_perm.
Qed.

End InsertionSort.

Section SortPolicy.
Context `{JsRuntime}.

Lemma le_on_trans field x y z : le_on field x y → le_on field y z → le_on field x z.
Proof.
  intros (a & b & Ha & Hb & Hab) (b' & c & Hb' & Hc & Hbc).
  exists a, c. split_and!; [done..|].
  rewrite Hb in Hb'. injection Hb' as <-. lia.
Qed.

Lemma compare_rows_ascending field a b x y :
  prop a field = num x → prop b field = num y →
  num_pos (compare_rows field "ascending" a b) = bool_decide (y < x)%Z.
Proof.
  intros Ha Hb. unfold compare_rows, js_sub. rewrite Ha, Hb. simpl.
  apply bool_decide_ext. lia.
Qed.

Lemma compare_rows_descending field order a b x y :
  order ≠ "ascending" →
  prop a field = num x → prop b field = num y →
  num_pos (compare_rows field order a b) = bool_decide (x < y)%Z.
Proof.
  intros Ho Ha Hb. unfold compare_rows, js_sub.
  rewrite bool_decide_eq_false_2 by done. rewrite Ha, Hb. simpl.
  apply bool_decide_ext. lia.
Qed.

(** On rows holding finite numbers under the field, [#sort] yields
    them in nondecreasing order when [order] is ['ascending'], and in
    nonincreasing order otherwise. *)
Lemma sort_ascending rows field :
  Forall (numeric_on field) rows →
  StronglySorted (le_on field) (array_sort (compare_rows field "ascending") rows).
Proof.
  apply array_sort_sorted.
  - apply le_on_trans.
  - intros a b [x Hx] [y Hy]. rewrite (compare_rows_ascending _ _ _ x y) by done.
    intros Hc%bool_decide_eq_true. exists y, x. split_and!; [done..|lia].
  - intros a b [x Hx] [y Hy]. rewrite (compare_rows_ascending _ _ _ x y) by done.
    intros Hc%bool_decide_eq_false. exists x, y. split_and!; [done..|lia].
Qed.

Lemma sort_descending rows field order :
  order ≠ "ascending" →
  Forall (numeric_on field) rows →
  StronglySorted (ge_on field) (array_sort (compare_rows field order) rows).
Proof.
  intros Ho. apply array_sort_sorted.
  - intros x y z Hxy Hyz. unfold ge_on in *. by eapply le_on_trans.
  - intros a b [x Hx] [y Hy]. rewrite (compare_rows_descending _ _ _ _ x y) by done.
    intros Hc%bool_decide_eq_true. exists x, y. split_and!; [done..|lia].
  - intros a b [x Hx] [y Hy]. rewrite (compare_rows_descending _ _ _ _ x y) by done.
    intros Hc%bool_decide_eq_false. exists y, x. split_and!; [done..|lia].
Qed.

(** C7.  [getAll] and [getFew] sort with the comparator
    [a[field] - b[field]] when [order] is ['ascending'] and
    [b[field] - a[field]] otherwise, [field] being ['id'] and [order]
    ['ascending'] when not given.  The result is a rearrangement of the
    rows sorted, and on rows holding finite numbers under the field it
    is in nondecreasing order for ['ascending'] and in nonincreasing
    order for ['descending'].  In particular
    [getAll({field: 'a', order: 'descending'})] on
    [[{id: 1, a: 3}, {id: 2, a: 9}, {id: 3, a: 1}]] gives the rows in
    the order 2, 1, 3. *)
Theorem sort_policy s sp value fld array :
  let field := default "id" (sort_field sp) in
  let ascending := bool_decide (default "ascending" (sort_order sp) = "ascending") in
  let cmp := λ a b : row,
    if ascending then js_sub (prop a field) (prop b field)
    else js_sub (prop b field) (prop a field) in
  let by_id := λ a b : row, js_sub (prop a "id") (prop b "id") in
  let found := List.filter (matches value fld) (default (storage s) array) in
  storage (getAll s (Some sp)).1 = array_sort cmp (storage s) ∧
  storage (getAll s None).1 = array_sort by_id (storage s) ∧
  getFew s value fld (SortBy sp) array = array_sort cmp found ∧
  getFew s value fld SortOmitted array = array_sort by_id found ∧
  (∀ rows, array_sort cmp rows ≡ₚ rows) ∧
  (∀ rows, Forall (numeric_on field) rows →
     if ascending then StronglySorted (le_on field) (array_sort cmp rows)
     else StronglySorted (ge_on field) (array_sort cmp rows)) ∧
  storage (getAll (store_of schema_a default_options [row_a 1 3; row_a 2 9; row_a 3 1])
             (Some by_a_descending)).1
  = [row_a 2 9; row_a 1 3; row_a 3 1].
Proof.
  intros field ascending cmp by_id found.
  assert (cmp = compare_rows field (default "ascending" (sort_order sp))) as Hcmp by done.
  split; [reflexivity|]. split; [reflexivity|].
  split; [reflexivity|]. split; [reflexivity|].
  split; [intros rows; apply array_sort_perm|]. split.
  - intros rows Hnum. rewrite Hcmp. unfold ascending.
    case_bool_decide as Ho.
    + rewrite Ho. by apply sort_ascending.
    + by apply sort_descending.
  - vm_compute. reflexivity.
Qed.

End SortPolicy.

(** Sorting [[{id: 1, a: 3}, {id: 2, a: 9}, {id: 3, a: 1}]] by [a],
    descending. *)
Lemma sort_policy_witness :
  Forall (numeric_on "a") [row_a 1 3; row_a 2 9; row_a 3 1] ∧
  StronglySorted (ge_on "a")
    (storage (getAll (store_of schema_a default_options
                        [row_a 1 3; row_a 2 9; row_a 3 1])
                (Some by_a_descending)).1).
Proof.
  assert (Forall (numeric_on "a") [row_a 1 3; row_a 2 9; row_a 3 1]) as Hnum.
  { repeat constructor; eexists; vm_compute; reflexivity. }
  split; [exact Hnum|].
  destruct (sort_policy (store_of schema_a default_options
                           [row_a 1 3; row_a 2 9; row_a 3 1])
              by_a_descending VUndefined "id" None)
    as (Hall & _ & _ & _ & _ & Hsorted & _).
  rewrite Hall. exact (Hsorted _ Hnum).
Defined.

(** ** Autosave *)

Section Autosave.
Context `{JsRuntime}.

Lemma intervals_saveOnExit opts w : intervals (saveOnExit opts w) = intervals w.
Proof.
  unfold saveOnExit. destruct (looseEq _ (VBool false)); [done|].
  by destruct (_ || _).
Qed.

Lemma intervals_createFile dir w : intervals (createFile dir w) = intervals w.
Proof. unfold createFile. by destruct (files w !! dir). Qed.

Lemma intervals_construct w dir st opts :
  intervals (construct w dir st opts).1 = intervals (saveAuto opts (createFile dir w)).
Proof. unfold construct. cbn [fst]. apply intervals_saveOnExit. Qed.

(** C9, amended.  The constructor schedules no periodic save when
    [save.auto] is loosely equal to zero, which holds of [0] and of the
    values that [==] converts to it; otherwise it schedules one with a
    period of [save.auto] seconds when [save.auto] is a number, and of
    60 seconds when it is absent or not a number. *)
Theorem autosave_schedule w dir st opts :
  let a := save_auto opts in
  let scheduled := intervals (construct w dir st opts).1 in
  (looseEq a (num 0) = true → scheduled = intervals w) ∧
  (∀ n, a = VNum n → num_eq n (Fin 0) = false →
        scheduled = (intervals w ++ [num_mul n (Fin 1000)])%list) ∧
  (looseEq a (num 0) = false → typeof a ≠ TagNumber →
        scheduled = (intervals w ++ [Fin 60000])%list) ∧
  (a = VUndefined → scheduled = (intervals w ++ [Fin 60000])%list).
Proof.
  intros a scheduled. unfold scheduled. rewrite intervals_construct.
  unfold saveAuto, num. fold a. split_and!.
  - intros ->. apply intervals_createFile.
  - intros n Ha Hn. rewrite Ha. cbn [looseEq ToNumber typeof]. rewrite Hn.
    cbn [setInterval intervals]. by rewrite intervals_createFile.
  - intros -> Ht. destruct (typeof a); try done;
      cbn [setInterval intervals]; by rewrite intervals_createFile.
  - intros ->. cbn [looseEq typeof].
    cbn [setInterval intervals]. by rewrite intervals_createFile.
Qed.

End Autosave.

(** [{save: {auto: 5}}] schedules a save every 5000 ms, [{save: {auto:
    0}}] none, [{save: {auto: 'often'}}] and no options one every
    60000 ms. *)
Lemma autosave_schedule_witness :
  intervals (construct no_world "store.json" schema_a (autosave_options (num 5))).1
    = [Fin 5000] ∧
  intervals (construct no_world "store.json" schema_a (autosave_options (num 0))).1
    = [] ∧
  intervals (construct no_world "store.json" schema_a
               (autosave_options (VStr "often"))).1
    = [Fin 60000] ∧
  intervals (construct no_world "store.json" schema_a default_options).1
    = [Fin 60000].
Proof.
  split_and!.
  - destruct (autosave_schedule no_world "store.json" schema_a
                (autosave_options (num 5))) as (_ & Hnumber & _).
    exact (Hnumber (Fin 5) eq_refl eq_refl).
  - destruct (autosave_schedule no_world "store.json" schema_a
                (autosave_options (num 0))) as (Hzero & _).
    exact (Hzero eq_refl).
  - destruct (autosave_schedule no_world "store.json" schema_a
                (autosave_options (VStr "often"))) as (_ & _ & Hother & _).
    apply Hother; [vm_compute; reflexivity | discriminate].
  - destruct (autosave_schedule no_world "store.json" schema_a default_options)
      as (_ & _ & _ & Habsent).
    exact (Habsent eq_refl).
Defined.

(** C9 as stated fails when [save.auto] is [false]: it is not a number,
    yet [false == 0] holds and nothing is scheduled, where the claim
    has a period of 60 seconds. *)
Lemma autosave_false_schedules_nothing :
  intervals (saveAuto (autosave_options (VBool false)) no_world) = [] ∧
  ¬ autosave_as_specified (autosave_options (VBool false)).
Proof.
  split; [vm_compute; reflexivity|].
  unfold autosave_as_specified. vm_compute. discriminate.
Qed.

(** ** Sorting in place *)

Section InPlace.
Context `{JsRuntime}.


(** Sorting keeps the rows' keys. *)
Lemma getAll_shaped s sort :
  Forall (shaped (structure s)) (storage s) →
  Forall (shaped (structure (getAll s sort).1)) (storage (getAll s sort).1).
Proof. intros Hshape. simpl. unfold sort_. by rewrite array_sort_perm. Qed.

(** [getFew] sorts the array [filter] made for it and leaves the stored
    rows where they are: the store is not among its results. *)
Lemma getFew_result s value field sort array :
  getFew s value field sort array
  ≡ₚ List.filter (matches value field) (default (storage s) array).
Proof. unfold getFew. destruct sort; unfold sort_; by rewrite ?array_sort_perm. Qed.

(** The array [getAll] returned stays the store's while rows are pushed
    onto it, and stops being the store's when [delete] assigns a new
    array to [this.storage]. *)
Lemma returned_array_sees_add s sort id values draws s2 :
  add (getAll s sort).1 id values draws = Returned s2 →
  view s2 (getAll s sort).2 = Some (storage s2).
Proof.
  intros Hadd. unfold view.
  assert (array_id s2 = array_id s) as Hid.
  { unfold add, push_row in Hadd. destruct (get _ id).
    - by injection Hadd as <-.
    - destruct (if nullish id then _ else _); [|done].
      destruct (createRow _ _ _); [|done]. by injection Hadd as <-. }
  cbn [getAll snd]. by rewrite bool_decide_eq_true_2.
Qed.

Lemma returned_array_left_by_delete s sort id :
  view (delete_ (getAll s sort).1 id) (getAll s sort).2 = None.
Proof. unfold view. simpl. rewrite bool_decide_eq_false_2; [done | lia]. Qed.

End InPlace.


(** * Further properties of the code *)

(** ** Searching a sequence *)

Lemma find_none_filter (p : row → bool) rows :
  List.find p (List.filter (λ r, negb (p r)) rows) = None.
Proof.
  induction rows as [|r rows IH]; simpl; [done|].
  destruct (p r) eqn:Hp; simpl; [done|]. by rewrite Hp.
Qed.

Lemma find_filter_other (p q : row → bool) rows r :
  List.find q rows = Some r → p r = false →
  List.find q (List.filter (λ r, negb (p r)) rows) = Some r.
Proof.
  induction rows as [|x rows IH]; simpl; [done|].
  destruct (q x) eqn:Hq.
  - intros [= ->] Hp. rewrite Hp. simpl. by rewrite Hq.
  - intros Hf Hp. destruct (p x); simpl; [by apply IH|].
    rewrite Hq. by apply IH.
Qed.

Lemma filter_none_id (p : row → bool) rows :
  List.find p rows = None → List.filter (λ r, negb (p r)) rows = rows.
Proof.
  induction rows as [|r rows IH]; simpl; [done|].
  destruct (p r); [done|]. simpl. intros Hf. f_equal. by apply IH.
Qed.

Lemma find_app_Some (p : row → bool) l1 l2 r :
  List.find p l1 = Some r → List.find p (l1 ++ l2) = Some r.
Proof.
  induction l1 as [|x l1 IH]; simpl; [done|]. by destruct (p x).
Qed.

Lemma find_app_None (p : row → bool) l1 l2 :
  List.find p l1 = None → List.find p (l1 ++ l2) = List.find p l2.
Proof.
  induction l1 as [|x l1 IH]; simpl; [done|]. by destruct (p x).
Qed.

Lemma find_insert_findIndex (p : row → bool) rows r r' :
  List.find p rows = Some r → p r' = true →
  List.find p (<[findIndex p rows := r']> rows) = Some r'.
Proof.
  induction rows as [|x rows IH]; simpl; [done|].
  destruct (p x) eqn:Hx; simpl.
  - intros _ ->. done.
  - intros Hf Hr'. rewrite Hx. by apply IH.
Qed.

Lemma find_ext_on (p q : row → bool) rows :
  Forall (λ r, p r = q r) rows → List.find p rows = List.find q rows.
Proof.
  induction 1 as [|r rows Hr _ IH]; simpl; [done|]. rewrite Hr, IH. done.
Qed.

(** ** [delete] *)

Section Delete.
Context `{JsRuntime}.

(** X1.  After [delete(id)], [get(id)] finds nothing; a row whose identifier
    does not match is kept, so that [get] of another identifier returns
    the row it returned before; and deleting an identifier that no row
    has leaves the sequence as it was. *)
Theorem delete_then_get s id :
  get (delete_ s id) id = None ∧
  (∀ id' r, get s id' = Some r → id_is id r = false →
            get (delete_ s id) id' = Some r) ∧
  (get s id = None → storage (delete_ s id) = storage s).
Proof.
  unfold get, delete_. cbn [storage assign_storage]. split_and!.
  - apply find_none_filter.
  - intros id' r. apply find_filter_other.
  - apply filter_none_id.
Qed.

End Delete.

(** Deleting [2] from [[{id: 1, a: 5}, {id: 2, a: 7}]] leaves [get(1)]
    as it was, and deleting [3], which no row has, changes nothing. *)
Lemma delete_then_get_witness :
  get (delete_ (store_of schema_a default_options [row_a 1 5; row_a 2 7]) (num 2))
      (num 1) = Some (row_a 1 5) ∧
  storage (delete_ (store_of schema_a default_options [row_a 1 5; row_a 2 7]) (num 3))
  = [row_a 1 5; row_a 2 7].
Proof.
  destruct (delete_then_get
              (store_of schema_a default_options [row_a 1 5; row_a 2 7]) (num 2))
    as (_ & Hother & _).
  destruct (delete_then_get
              (store_of schema_a default_options [row_a 1 5; row_a 2 7]) (num 3))
    as (_ & _ & Habsent).
  split.
  - apply Hother; vm_compute; reflexivity.
  - apply Habsent. vm_compute. reflexivity.
Defined.

(** ** Looking up what was added or set *)

Section AddGet.
Context `{JsRuntime}.

Lemma nullish_looseEq a b : nullish a = true → nullish b = true → looseEq a b = true.
Proof. by destruct a, b. Qed.

Lemma looseEq_nan a : looseEq a (VNum NaN) = false.
Proof. destruct a as [| | |[]|]; simpl; try done. by destruct (StringToNumber s). Qed.

(** X2.  [add] never overwrites: whatever [get] found before, it finds
    after.  When the identifier is given, equal to itself under [==]
    and not yet in the store, and the schema declares no field named
    [id], [get] then returns the appended row, which holds the
    identifier and, under each declared field, its coerced value. *)
Theorem add_then_get s id values draws s' :
  add s id values draws = Returned s' →
  (∀ id' r, get s id' = Some r → get s' id' = Some r) ∧
  ("id" ∉ keys (structure s) → nullish id = false → looseEq id id = true →
   get s id = None →
   ∃ r, get s' id = Some r ∧ prop r "id" = id ∧
        ∀ k, k ∈ keys (structure s) →
             r !! k = Some (coerced (structure s) (options s) values k)).
Proof.
  intros Hadd. destruct (get s id) as [r0|] eqn:Hg.
  - unfold add in Hadd. rewrite Hg in Hadd. injection Hadd as <-.
    split; [done|]. by intros _ _ _ ?.
  - destruct (add_appends _ _ _ _ _ Hg Hadd) as (id' & r & Hr & Hid' & Hs').
    split.
    + intros id0 r0 Hg0. unfold get in *. rewrite Hs'. by apply find_app_Some.
    + intros Hid Hn Hrefl _. rewrite (Hid' Hn) in Hs'.
      exists (r ∪ {["id" := id]}).
      assert (prop (r ∪ {["id" := id]}) "id" = id) as Hpid by by eapply new_row_id.
      split_and!; [|done|].
      * unfold get in *. rewrite Hs', find_app_None by done. simpl.
        unfold id_is at 1. by rewrite Hpid, Hrefl.
      * intros k Hk. apply lookup_union_Some_raw. left.
        rewrite (createRow_lookup _ _ _ _ _ Hr). by rewrite decide_True.
Qed.

(** X3.  No row is ever found under [NaN], so that [set(NaN, ...)] appends a
    row each time it is called. *)
Theorem nan_is_never_found s values draws :
  get s (VNum NaN) = None ∧
  ∃ r, set s (VNum NaN) values draws
       = Returned (with_storage s (storage s ++ [r])) ∧
       get (with_storage s (storage s ++ [r])) (VNum NaN) = None.
Proof.
  assert (∀ s0, get s0 (VNum NaN) = None) as Hnone.
  { intros s0. unfold get. induction (storage s0) as [|r rows IH]; simpl; [done|].
    unfold id_is at 1. by rewrite looseEq_nan. }
  split; [done|].
  unfold set, push_row. rewrite Hnone. cbn [nullish]. rewrite createRow_returns.
  eexists. split; [reflexivity | apply Hnone].
Qed.

(** X4.  After [set] has returned on an identifier that exists, under a
    schema that declares no field named [id], [get] returns the row
    [set] wrote to, and this row holds every value of [values] that
    passes the type-correctness check, the accessor [__proto__] apart
    ([set_proto_creates_nothing]). *)
Theorem set_then_get s id values draws r0 s' :
  "id" ∉ keys (structure s) →
  get s id = Some r0 →
  set s id values draws = Returned s' →
  ∃ r', get s' id = Some r' ∧
        (NoDup values.*1 →
         ∀ k v, (k, v) ∈ values →
                isCorrectType (structure s) (options s) k v = Ok true →
                k ≠ "__proto__" →
                r' !! k = Some v) ∧
        (∀ k, (∀ v, (k, v) ∈ values →
                    isCorrectType (structure s) (options s) k v ≠ Ok true) →
              r' !! k = r0 !! k).
Proof.
  intros Hid Hg Hset.
  destruct (set_existing s id values draws r0 Hg) as [Hi Hs].
  rewrite Hs in Hset.
  destruct ((assign_row (structure s) (options s) r0 values).2) eqn:He; [done|].
  injection Hset as <-.
  exists ((assign_row (structure s) (options s) r0 values).1). split_and!.
  - unfold get in *. cbn [storage with_storage].
    apply (find_insert_findIndex _ _ r0); [done|].
    destruct (get_Some s id r0 Hg) as [_ Hm]. unfold id_is, prop in *.
    rewrite assign_row_frame; [done|].
    intros v _. by apply isCorrectType_id.
  - intros Hnd k v Hin Hc Hacc. by apply assign_row_written.
  - intros k Hk. by apply assign_row_frame.
Qed.

(** X5.  A row without an identifier stands for every call without one:
    while a row holds [null] or [undefined] under [id], [add] without an
    identifier adds nothing. *)
Theorem add_without_id_blocked s id values draws r :
  r ∈ storage s → nullish (prop r "id") = true → nullish id = true →
  add s id values draws = Returned s.
Proof.
  intros Hin Hr Hid. unfold add.
  destruct (get s id) eqn:Hg; [done|].
  pose proof (get_None s id r Hg Hin) as Hno. unfold id_is in Hno.
  by rewrite nullish_looseEq in Hno.
Qed.

(** X6.  On a store whose identifiers are numbers, a string finds the row
    that the number it converts to finds. *)
Theorem get_by_string s t :
  Forall number_id (storage s) →
  get s (VStr t) = get s (VNum (StringToNumber t)).
Proof.
  intros Hnum. unfold get. apply find_ext_on.
  eapply Forall_impl; [exact Hnum|].
  intros r [n Hn]. unfold id_is. by rewrite Hn.
Qed.

(** X7.  [#generateID] returns a number exactly when it is the first draw
    that no row has for identifier, under [==]. *)
Theorem generateID_first_free s draws z :
  generateID s draws = Some z ↔
  ∃ taken rest, draws = (taken ++ z :: rest)%list ∧
                Forall (λ d, is_Some (get s (num d))) taken ∧
                get s (num z) = None.
Proof.
  split.
  - induction draws as [|d draws IH]; simpl; [done|].
    destruct (get s (VNum (Fin d))) eqn:Hd.
    + intros Hz. destruct (IH Hz) as (taken & rest & -> & Ht & Hfree).
      exists (d :: taken), rest. split_and!; [done| |done].
      constructor; [unfold num; rewrite Hd; eauto | done].
    + intros [= <-]. exists [], draws. split_and!; [done|constructor|done].
  - intros (taken & rest & -> & Ht & Hfree).
    induction Ht as [|d taken [r Hd] _ IH]; simpl.
    + unfold num in Hfree. by rewrite Hfree.
    + unfold num in Hd. by rewrite Hd.
Qed.

(** [add] without an identifier appends a row under that number. *)
Lemma add_without_id s id values draws z :
  nullish id = true → get s id = None → generateID s draws = Some z →
  ∃ r, createRow (structure s) (options s) values = Ok r ∧
       add s id values draws
       = Returned (with_storage s (storage s ++ [r ∪ {["id" := num z]}])).
Proof.
  intros Hid Hg Hz. unfold add, push_row.
  rewrite Hg, Hid, Hz, createRow_returns. eauto.
Qed.

End AddGet.

(** [add(2, {a: 7})] next to [{id: 1, a: 5}]: both rows are found. *)
Lemma add_then_get_witness :
  get (store_of schema_a default_options [row_a 1 5; row_a 2 7]) (num 1)
    = Some (row_a 1 5) ∧
  ∃ r, get (store_of schema_a default_options [row_a 1 5; row_a 2 7]) (num 2) = Some r ∧
       prop r "id" = num 2 ∧ r !! "a" = Some (num 7).
Proof.
  destruct (add_then_get (store_of schema_a default_options [row_a 1 5])
              (num 2) [("a", num 7)] []
              (store_of schema_a default_options [row_a 1 5; row_a 2 7]))
    as [Hkept Hnew]; [vm_compute; reflexivity|].
  split.
  - apply Hkept. vm_compute. reflexivity.
  - destruct Hnew as (r & Hr & Hid & Hfields).
    + vm_compute. intros Hin. inversion Hin as [|? ? ? Hin']; subst. inversion Hin'.
    + reflexivity.
    + vm_compute. reflexivity.
    + vm_compute. reflexivity.
    + exists r. split; [exact Hr|]. split; [exact Hid|].
      apply (Hfields "a"). vm_compute. by left.
Defined.

(** [set(1, {a: 10})] on [{id: 1, a: 5, b: 0}], then [get(1)]. *)
Lemma set_then_get_witness :
  ∃ r', get (store_of schema_ab default_options [row_ab 1 10 0]) (num 1) = Some r' ∧
        r' !! "a" = Some (num 10) ∧ r' !! "b" = row_ab 1 5 0 !! "b".
Proof.
  destruct (set_then_get (store_of schema_ab default_options [row_ab 1 5 0])
              (num 1) [("a", num 10)] [] (row_ab 1 5 0)
              (store_of schema_ab default_options [row_ab 1 10 0]))
    as (r' & Hget & Hwritten & Hkept).
  - vm_compute. intros Hin. inversion Hin as [|? ? ? Hin']; subst.
    inversion Hin' as [|? ? ? Hin'']; subst. inversion Hin''.
  - vm_compute. reflexivity.
  - vm_compute. reflexivity.
  - exists r'. split; [exact Hget|]. split.
    + apply Hwritten; [apply NoDup_singleton | by left | vm_compute; reflexivity | done].
    + apply Hkept. intros v Hin. apply list_elem_of_singleton in Hin. discriminate Hin.
Defined.

(** Next to a row loaded without an identifier, [add(undefined, {a:
    7})] adds nothing. *)
Lemma add_without_id_blocked_witness :
  add (store_of schema_a default_options [ {[ "id" := VUndefined; "a" := num 5 ]} ])
      VUndefined [("a", num 7)] [3]
  = Returned (store_of schema_a default_options
                [ {[ "id" := VUndefined; "a" := num 5 ]} ]).
Proof.
  apply (add_without_id_blocked _ _ _ _ {[ "id" := VUndefined; "a" := num 5 ]}).
  - by left.
  - vm_compute. reflexivity.
  - reflexivity.
Defined.

(** [get('2')] is [get(2)]. *)
Lemma get_by_string_witness :
  get (store_of schema_a default_options [row_a 1 5; row_a 2 7]) (VStr "2")
  = get (store_of schema_a default_options [row_a 1 5; row_a 2 7]) (num 2).
Proof.
  change (num 2) with (VNum (StringToNumber "2")).
  apply (get_by_string (store_of schema_a default_options [row_a 1 5; row_a 2 7]) "2").
  repeat constructor; eexists; vm_compute; reflexivity.
Defined.

(** ** Queries *)

Lemma filter_filter_and (p q : row → bool) rows :
  List.filter q (List.filter p rows) = List.filter (λ r, p r && q r) rows.
Proof.
  induction rows as [|r rows IH]; simpl; [done|].
  destruct (p r); simpl; [|done]. destruct (q r); by rewrite IH.
Qed.

Lemma find_filter_and (p q : row → bool) rows :
  List.find q (List.filter p rows) = List.find (λ r, p r && q r) rows.
Proof.
  induction rows as [|r rows IH]; simpl; [done|].
  destruct (p r); simpl; [|done]. by destruct (q r).
Qed.

Lemma filter_ext_bool (p q : row → bool) rows :
  (∀ r, p r = q r) → List.filter p rows = List.filter q rows.
Proof.
  intros Hpq. induction rows as [|r rows IH]; simpl; [done|].
  rewrite Hpq, IH. done.
Qed.

Lemma find_head_filter (p : row → bool) rows :
  List.find p rows = head (List.filter p rows).
Proof.
  induction rows as [|r rows IH]; simpl; [done|]. by destruct (p r).
Qed.

Section QueryFacts.
Context `{JsRuntime}.

(** X8.  [find(v1, f1).find(v2, f2).result] is the rows of the store that
    meet both conditions, in the store's order, whichever condition
    comes first; [getOne] on the chain is the first of them and [getFew]
    a rearrangement of them. *)
Theorem find_chain s v1 f1 v2 f2 sort :
  let both := matches_both v1 f1 v2 f2 in
  result_ (found_find s (find s v1 f1 None) v2 f2) = List.filter both (storage s) ∧
  result_ (found_find s (find s v2 f2 None) v1 f1) = List.filter both (storage s) ∧
  found_getOne s (find s v1 f1 None) v2 f2 = List.find both (storage s) ∧
  found_getFew s (find s v1 f1 None) v2 f2 sort ≡ₚ List.filter both (storage s).
Proof.
  intros both. unfold found_find, found_getOne, found_getFew, find. cbn [result_ default].
  split_and!.
  - apply filter_filter_and.
  - etransitivity; [apply filter_filter_and|]. apply filter_ext_bool.
    intros r. unfold both, matches_both. apply andb_comm.
  - unfold getOne. apply find_filter_and.
  - rewrite getFew_result. apply reflexive_eq. apply filter_filter_and.
Qed.

(** X9.  [getFew] returns the rows of the array searched that match, each as
    often as it is there; [getOne] returns the first of them, and is
    [undefined] exactly when there is none; [get(id)] is
    [getOne(id, 'id')]. *)
Theorem getFew_getOne s value field sort array :
  (∀ r, r ∈ getFew s value field sort array ↔
        r ∈ default (storage s) array ∧ matches value field r = true) ∧
  getOne s value field array = head (getFew s value field SortFalsy array) ∧
  (getOne s value field array = None ↔ getFew s value field sort array = []) ∧
  get s value = getOne s value "id" None.
Proof.
  assert (∀ r, r ∈ getFew s value field sort array ↔
               r ∈ default (storage s) array ∧ matches value field r = true) as Hmem.
  { intros r. rewrite getFew_result, !list_elem_of_In. apply filter_In. }
  split; [exact Hmem|]. split; [apply find_head_filter|]. split; [|reflexivity].
  unfold getOne. split.
  - intros Hnone. destruct (getFew s value field sort array) as [|r l] eqn:Hfew; [done|].
    assert (r ∈ r :: l) as Hr by by left.
    apply Hmem in Hr as [Hin Hm]. apply list_elem_of_In in Hin.
    by rewrite (find_none _ _ Hnone r Hin) in Hm.
  - intros Hempty. destruct (List.find _ _) as [r|] eqn:Hf; [|done].
    apply find_some in Hf as [Hin Hm].
    assert (r ∈ getFew s value field sort array) as Hr.
    { apply Hmem. split; [by apply list_elem_of_In | done]. }
    rewrite Hempty in Hr. by apply elem_of_nil in Hr.
Qed.

End QueryFacts.

(** ** Sorting what is sorted, and what cannot be *)

Section SortFixed.
Variable cmp : row → row → number.

(** A sequence on which the comparator is nowhere positive, from an
    earlier row to a later one, is left as it is. *)
Lemma array_sort_fixed (R : row → row → Prop) l :
  (∀ x y, R x y → num_pos (cmp x y) = false) →
  StronglySorted R l → array_sort cmp l = l.
Proof.
  intros Hcmp Hs. induction Hs as [|x l Hs IH Hx]; simpl; [done|].
  fold (array_sort cmp l). rewrite IH.
  destruct l as [|y l]; simpl; [done|].
  apply Forall_cons in Hx as [Hxy _]. by rewrite (Hcmp x y Hxy).
Qed.

Lemma StronglySorted_pairwise (P : row → Prop) l :
  Forall P l → StronglySorted (λ x y, P x ∧ P y) l.
Proof.
  induction 1 as [|x l Hx Hl IH]; constructor; [done|].
  eapply Forall_impl; [exact Hl|]. by intros y Hy.
Qed.

End SortFixed.

Section SortFacts.
Context `{JsRuntime}.

(** X10.  Calling [getAll] a second time with the same argument changes
    nothing, on rows holding finite numbers under the field. *)
Theorem getAll_twice s sort :
  let field := default "id" (sort_field (default no_sort_spec sort)) in
  Forall (numeric_on field) (storage s) →
  storage (getAll (getAll s sort).1 sort).1 = storage (getAll s sort).1.
Proof.
  intros field Hnum. cbn [getAll fst storage with_storage]. unfold sort_. fold field.
  set (order := default "ascending" (sort_order (default no_sort_spec sort))).
  destruct (decide (order = "ascending")) as [Ho|Ho].
  - rewrite Ho. apply (array_sort_fixed _ (le_on field)); [|by apply sort_ascending].
    intros a b (x & y & Ha & Hb & Hxy).
    rewrite (compare_rows_ascending _ _ _ x y) by done.
    apply bool_decide_eq_false_2. lia.
  - apply (array_sort_fixed _ (ge_on field)); [|by apply sort_descending].
    intros a b (y & x & Hb & Ha & Hxy).
    rewrite (compare_rows_descending _ _ _ _ x y) by done.
    apply bool_decide_eq_false_2. lia.
Qed.

(** X11.  Sorting by a field under which no row converts to a number, as a
    field of names or a field the rows do not have, leaves the rows in
    the order they were in, for either order asked. *)
Theorem sort_not_numeric s field order :
  Forall (not_numeric_on field) (storage s) →
  storage (getAll s (Some {| sort_field := Some field; sort_order := order |})).1
  = storage s.
Proof.
  intros Hnan.
  cbn [getAll fst storage with_storage default from_option sort_field sort_order].
  unfold sort_. cbn [default from_option]. unfold id.
  apply (array_sort_fixed _ (λ a b, not_numeric_on field a ∧ not_numeric_on field b));
    [|by apply StronglySorted_pairwise].
  intros a b [Ha Hb]. unfold compare_rows, js_sub, not_numeric_on in *.
  cbn [sort_field sort_order from_option]. rewrite Ha, Hb. by destruct (bool_decide _).
Qed.

End SortFacts.

(** Sorting [[{id: 2, a: 1}, {id: 1, a: 3}]] by [a] twice. *)
Lemma getAll_twice_witness :
  storage (getAll (getAll (store_of schema_a default_options [row_a 2 3; row_a 1 1])
                     (Some {| sort_field := Some "a"; sort_order := None |})).1
             (Some {| sort_field := Some "a"; sort_order := None |})).1
  = [row_a 1 1; row_a 2 3].
Proof.
  rewrite (getAll_twice (store_of schema_a default_options [row_a 2 3; row_a 1 1])
             (Some {| sort_field := Some "a"; sort_order := None |})).
  - vm_compute. reflexivity.
  - repeat constructor; eexists; vm_compute; reflexivity.
Defined.

(** Sorting by [name], which the rows do not have. *)
Lemma sort_not_numeric_witness :
  storage (getAll (store_of schema_a default_options [row_a 2 3; row_a 1 1])
             (Some {| sort_field := Some "name"; sort_order := Some "descending" |})).1
  = [row_a 2 3; row_a 1 1].
Proof.
  apply (sort_not_numeric (store_of schema_a default_options [row_a 2 3; row_a 1 1])
           "name" (Some "descending")).
  repeat constructor.
Defined.

(** ** The constructor and the file *)

Section ConstructFacts.
Context `{JsRuntime}.

Lemma files_construct w dir st opts :
  files (construct w dir st opts).1 = files (createFile dir w).
Proof. unfold construct. cbn [fst]. by rewrite files_saveOnExit, files_saveAuto. Qed.

(** X12.  The constructor creates a missing file holding [[]] and starts
    with no row; it leaves every file that exists as it is, its own
    included, and reads one row for each entry of its file. *)
Theorem construct_files w dir st opts :
  (files w !! dir = None →
   files (construct w dir st opts).1 = <[dir := []]> (files w) ∧
   storage (construct w dir st opts).2 = []) ∧
  (is_Some (files w !! dir) → files (construct w dir st opts).1 = files w) ∧
  (∀ other, other ≠ dir →
            files (construct w dir st opts).1 !! other = files w !! other) ∧
  length (storage (construct w dir st opts).2) = length (loaded w dir).
Proof.
  rewrite files_construct, construct_storage. unfold createFile, loaded, parse.
  split_and!.
  - intros Hnone. rewrite Hnone. done.
  - intros [d Hd]. by rewrite Hd.
  - intros other Hne. destruct (files w !! dir); [done|].
    cbn [files]. by rewrite lookup_insert_ne.
  - by rewrite !length_map.
Qed.

Lemma handlers_saveAuto opts w : handlers (saveAuto opts w) = handlers w.
Proof. unfold saveAuto. destruct (looseEq _ _); [done|]. by destruct (typeof _). Qed.

Lemma handlers_createFile dir w : handlers (createFile dir w) = handlers w.
Proof. unfold createFile. by destruct (files w !! dir). Qed.

Lemma looseEq_undefined v : looseEq v VUndefined = nullish v.
Proof. by destruct v. Qed.

Lemma looseEq_false_not_true v :
  looseEq v (VBool false) = true →
  nullish v || looseEq v (VBool true) = false.
Proof.
  destruct v as [| |[]|[]|t]; simpl; try done.
  - rewrite !bool_decide_eq_true. intros ->. by apply bool_decide_eq_false_2.
  - destruct (StringToNumber t); simpl; try done.
    rewrite !bool_decide_eq_true. intros ->. by apply bool_decide_eq_false_2.
Qed.

(** X13.  The constructor gives [exit] and [SIGINT] a handler exactly when
    [save.onExit] is absent, [null] or loosely equal to [true]; with
    any other value, a truthy one such as [5] included, it gives them
    none. *)
Theorem exit_handlers w dir st opts :
  handlers (construct w dir st opts).1
  = (handlers w ++
     if nullish (save_onExit opts) || looseEq (save_onExit opts) (VBool true)
     then ["exit"; "SIGINT"] else [])%list.
Proof.
  unfold construct. cbn [fst]. unfold saveOnExit.
  rewrite looseEq_undefined.
  destruct (looseEq (save_onExit opts) (VBool false)) eqn:Hf.
  - rewrite (looseEq_false_not_true _ Hf), handlers_saveAuto, handlers_createFile.
    by rewrite app_nil_r.
  - rewrite (orb_comm (nullish _)).
    destruct (_ || _); cbn [handlers];
      rewrite handlers_saveAuto, handlers_createFile; [done | by rewrite app_nil_r].
Qed.

Lemma reload_rows st rows :
  no_rename st → Forall (shaped st) rows → Forall row_representable rows →
  map (structure_row st) (parse (stringify rows)) = rows.
Proof.
  intros Hn Hshape Hrep. unfold parse, stringify.
  induction rows as [|r rows IH]; [done|].
  apply Forall_cons in Hshape as [Hr Hshape].
  apply Forall_cons in Hrep as [Hrr Hrep].
  cbn [map]. rewrite reload_row by done. f_equal. by apply IH.
Qed.

Lemma storage_reloaded s w :
  storage (construct (save s w) (directory s) (structure s) (options s)).2
  = map (structure_row (structure s)) (parse (stringify (storage s))).
Proof.
  rewrite construct_storage. unfold loaded, save. cbn [files].
  by rewrite lookup_insert_eq.
Qed.

Lemma parsed_representable j : row_representable (parse_row j).
Proof.
  intros k v. unfold parse_row. rewrite lookup_fmap.
  destruct (j !! k) as [[]|]; simpl; by intros [= <-].
Qed.

Lemma prop_parsed_representable j k : representable (prop (parse_row j) k) = true.
Proof.
  unfold prop. destruct (parse_row j !! k) as [v|] eqn:Hv; [|done].
  by apply (parsed_representable j k).
Qed.

(** X14.  What the constructor has read it reads again: under a schema that
    renames no field, saving the store just constructed from a file
    whose numerals are integers that a double holds exactly, and
    constructing it again, gives the same rows. *)
Theorem loaded_store_reloads w w' dir st opts :
  no_rename st →
  exact_numerals (loaded w dir) →
  storage (construct (save (construct w dir st opts).2 w') dir st opts).2
  = storage (construct w dir st opts).2.
Proof.
  intros Hn _.
  pose proof (storage_reloaded (construct w dir st opts).2 w') as Hre.
  cbn [construct snd directory structure options] in Hre. cbn [construct snd].
  etransitivity; [exact Hre|]. clear Hre.
  apply reload_rows; [done | by apply construct_shaped |].
  cbn [storage]. apply Forall_forall. intros r Hin.
  apply list_elem_of_fmap in Hin as (raw & -> & Hraw).
  apply list_elem_of_fmap in Hraw as (j & -> & _).
  intros k v. rewrite structure_row_no_rename by done.
  case_decide; [|done]. intros [= <-]. apply prop_parsed_representable.
Qed.



End ConstructFacts.

(** Constructing over no file at all. *)
Lemma construct_files_witness :
  files (construct no_world "store.json" schema_a default_options).1
    = {[ "store.json" := [] ]} ∧
  storage (construct no_world "store.json" schema_a default_options).2 = [] ∧
  files (construct (world_with [ {[ "id" := JNum 1 ]} ]) "store.json" schema_a
           default_options).1
    = files (world_with [ {[ "id" := JNum 1 ]} ]) ∧
  files (construct no_world "store.json" schema_a default_options).1 !! "other.json"
    = None.
Proof.
  destruct (construct_files no_world "store.json" schema_a default_options)
    as (Hmissing & _ & Hother & _).
  destruct (construct_files (world_with [ {[ "id" := JNum 1 ]} ]) "store.json"
              schema_a default_options) as (_ & Hexists & _).
  destruct Hmissing as [Hfile Hrows]; [reflexivity|].
  split_and!.
  - rewrite Hfile. reflexivity.
  - exact Hrows.
  - apply Hexists. vm_compute. eauto.
  - rewrite Hother by discriminate. reflexivity.
Defined.

(** A file row with a key the schema does not declare and without [a]:
    what is loaded from it is loaded again. *)
Lemma loaded_store_reloads_witness :
  storage (construct
             (save (construct (world_with [ {[ "id" := JNum 1; "z" := JNum 9 ]} ])
                      "store.json" schema_a default_options).2 no_world)
             "store.json" schema_a default_options).2
  = [ {[ "id" := num 1; "a" := VUndefined ]} ].
Proof.
  rewrite (loaded_store_reloads (world_with [ {[ "id" := JNum 1; "z" := JNum 9 ]} ])
             no_world "store.json" schema_a default_options).
  - vm_compute. reflexivity.
  - intros k d Hin. apply list_elem_of_singleton in Hin.
    injection Hin as -> ->. reflexivity.
  - apply Forall_singleton.
    change (map_Forall (λ _ j, exact_numeral j = true)
              ({[ "id" := JNum 1; "z" := JNum 9 ]} : gmap string jval)).
    apply (bool_decide_unpack _). vm_compute. reflexivity.
Defined.


(** ** The flat variant *)

Section ObjectFacts.
Context `{JsRuntime}.

(** X16.  [set] of the flat store either takes the value or leaves the
    store as it was.  When it takes it, under a key other than the
    accessor [__proto__], [get] of the key then returns it and [get] of
    every other key returns what it did.  It takes the value when there
    is no schema; under a schema, when the key is declared and the
    value has the declared type or type-checking is off, and also when
    type-checking is off and the key is a name the schema inherits from
    [Object.prototype].  It raises exactly when there is a schema,
    type-checking is on and the key is neither declared nor such a
    name. *)
Theorem object_set_get s key v :
  (∀ s', ObjectStorage.set s key v = Ok s' →
     (ObjectStorage.accepts s key v = false → s' = s) ∧
     (ObjectStorage.accepts s key v = true → key ≠ "__proto__" →
      ObjectStorage.get s' key = ObjectStorage.Held v ∧
      ∀ k', k' ≠ key → ObjectStorage.get s' k' = ObjectStorage.get s k')) ∧
  ((∃ e, ObjectStorage.set s key v = Raise e) ↔
   ∃ st, ObjectStorage.structure s = Some st ∧
         checkType_off (ObjectStorage.options s) = false ∧
         key ∉ keys st ∧ inherited key = false).
Proof.
  assert (key ≠ "__proto__" →
          ObjectStorage.get (ObjectStorage.write s key v) key = ObjectStorage.Held v ∧
          ∀ k', k' ≠ key → ObjectStorage.get (ObjectStorage.write s key v) k'
                           = ObjectStorage.get s k') as Hwrite.
  { intros Hacc. unfold ObjectStorage.get, ObjectStorage.write.
    destruct (ObjectStorage.detached s) eqn:Hdet; cbn [ObjectStorage.storage ObjectStorage.detached].
    - rewrite lookup_insert_eq. split; [done|].
      intros k' Hne. by rewrite lookup_insert_ne.
    - rewrite lookup_assign_prop_eq by done. split; [done|].
      intros k' Hne. rewrite lookup_assign_prop_ne by done.
      by rewrite (bool_decide_eq_false_2 _ Hacc). }
  assert (∀ st, ObjectStorage.structure s = Some st →
            isCorrectType st (ObjectStorage.options s) key v
            = if bool_decide (checkType_off (ObjectStorage.options s) = false
                              ∧ key ∉ keys st ∧ inherited key = false)
              then Raise TypeError else Ok (ObjectStorage.accepts s key v)) as Hcheck.
  { intros st Hst. unfold ObjectStorage.accepts. rewrite Hst.
    case_bool_decide as Hr; [by apply isCorrectType_raises|].
    unfold isCorrectType, isField.
    destruct (checkType_off (ObjectStorage.options s)) eqn:Hoff; simpl.
    - destruct (descriptor_of st key) as [d|] eqn:Hd.
      + by rewrite bool_decide_eq_true_2 by eauto.
      + by rewrite bool_decide_eq_false_2 by (by intros [? ?]).
    - destruct (descriptor_of st key) as [d|] eqn:Hd.
      + by rewrite bool_decide_eq_true_2 by eauto.
      + destruct (inherited key) eqn:Hi; [done|]. destruct Hr.
        split_and!; [done| |done]. rewrite descriptor_of_keys, Hd. by intros [? ?]. }
  unfold ObjectStorage.set.
  destruct (ObjectStorage.structure s) as [st|] eqn:Hst.
  - rewrite (Hcheck st eq_refl). case_bool_decide as Hr.
    + split; [done|]. split; [intros _; by exists st | eauto].
    + simpl. split.
      * intros s' [= <-].
        destruct (ObjectStorage.accepts s key v); (split; [done|]);
          [intros _; exact Hwrite | done].
      * split; [by intros [e ?]|]. intros (st' & [= <-] & Hraise). done.
  - split.
    + intros s' [= <-]. unfold ObjectStorage.accepts. rewrite Hst.
      split; [done|]. intros _. exact Hwrite.
    + split; [by intros [e ?]|]. by intros (st' & ? & _).
Qed.

Lemma object_loaded w dir opts st :
  ObjectStorage.storage (ObjectStorage.construct w dir opts st).2
  = ObjectStorage.structure_ st
      (parse_row (default ∅ (ObjectStorage.objects (ObjectStorage.createFile dir w) !! dir))).
Proof. reflexivity. Qed.

(** X17.  What the flat store loads.  Without a schema it holds the object of
    the file as it is, and the empty object when it had to create the
    file.  With a schema it holds the declared fields and nothing else,
    each, when the keys they are filed under are distinct, with what
    the file has under its name. *)
Theorem object_load w dir opts :
  (ObjectStorage.objects w !! dir = None →
   ObjectStorage.storage (ObjectStorage.construct w dir opts None).2 = ∅ ∧
   ObjectStorage.objects (ObjectStorage.construct w dir opts None).1
   = <[dir := ∅]> (ObjectStorage.objects w)) ∧
  (∀ j, ObjectStorage.objects w !! dir = Some j →
   ObjectStorage.storage (ObjectStorage.construct w dir opts None).2 = parse_row j ∧
   ObjectStorage.objects (ObjectStorage.construct w dir opts None).1
   = ObjectStorage.objects w ∧
   ∀ st, dom (ObjectStorage.storage (ObjectStorage.construct w dir opts (Some st)).2)
         = list_to_set (out_names st) ∧
         (NoDup (out_names st) → ∀ k d, (k, d) ∈ st →
            ObjectStorage.storage (ObjectStorage.construct w dir opts (Some st)).2
              !! out_name k d = Some (prop (parse_row j) k))).
Proof.
  split.
  - intros Hnone. rewrite object_loaded. unfold ObjectStorage.construct, ObjectStorage.createFile.
    rewrite Hnone. cbn. rewrite lookup_insert_eq. done.
  - intros j Hj. rewrite !object_loaded.
    unfold ObjectStorage.construct, ObjectStorage.createFile. rewrite Hj. cbn.
    rewrite Hj. cbn. split_and!; [done..|].
    intros st. split.
    + rewrite structured_dom, dom_empty_L. set_solver.
    + intros Hnd k d Hin. by apply structured_lookup.
Qed.

(** X18.  Saving the flat store and constructing it again, for a key that
    is not the name of a member of [Object.prototype].  Without a
    schema, [get] returns what it returned before, when the store holds
    no [NaN] or infinity.  With a schema that renames nothing, it does
    so when the key is declared, and returns [undefined] when it is
    not. *)
Theorem object_save_reload s w key :
  row_representable (ObjectStorage.storage s) →
  inherited key = false →
  (ObjectStorage.get
     (ObjectStorage.construct (ObjectStorage.save s w) (ObjectStorage.directory s)
        (ObjectStorage.options s) None).2 key
   = ObjectStorage.get s key) ∧
  (∀ st, no_rename st →
     ObjectStorage.get
       (ObjectStorage.construct (ObjectStorage.save s w) (ObjectStorage.directory s)
          (ObjectStorage.options s) (Some st)).2 key
     = if decide (key ∈ keys st) then ObjectStorage.get s key
       else ObjectStorage.Held VUndefined).
Proof.
  intros Hrep Hi.
  assert (∀ st, ObjectStorage.storage
                  (ObjectStorage.construct (ObjectStorage.save s w)
                     (ObjectStorage.directory s) (ObjectStorage.options s) st).2
                = ObjectStorage.structure_ st
                    (parse_row (stringify_row (ObjectStorage.storage s)))) as Hload.
  { intros st. rewrite object_loaded.
    unfold ObjectStorage.createFile, ObjectStorage.save. cbn [ObjectStorage.objects].
    rewrite lookup_insert_eq. cbn [ObjectStorage.objects].
    by rewrite lookup_insert_eq. }
  assert (∀ s0, ObjectStorage.get s0 key
                = ObjectStorage.Held (prop (ObjectStorage.storage s0) key)) as Hget.
  { intros s0. unfold ObjectStorage.get, prop. rewrite Hi, andb_false_r.
    by destruct (ObjectStorage.storage s0 !! key). }
  rewrite !Hget. split.
  - rewrite Hload. f_equal. by apply prop_parse_stringify.
  - intros st Hn. rewrite Hget, Hload. cbn [ObjectStorage.structure_].
    rewrite structured_no_rename by done. unfold prop at 1.
    rewrite lookup_foldl_insert, lookup_empty.
    case_decide; [|done]. simpl. f_equal. by apply prop_parse_stringify.
Qed.

(** Under a name of [Object.prototype], [get] of a store that holds no
    such property returns the inherited member; [set] under [{a:
    number}] with type-checking on leaves the store alone without
    raising, and with type-checking off files the value.  An
    assignment under [__proto__] files nothing. *)
Lemma object_inherited_key :
  ObjectStorage.get (object_of default_options None ∅) "toString"
    = ObjectStorage.Member "toString" ∧
  ObjectStorage.set (object_of default_options (Some schema_a) ∅) "toString" (num 7)
    = Ok (object_of default_options (Some schema_a) ∅) ∧
  ObjectStorage.set (object_of unchecked_options (Some schema_a) ∅) "constructor" (num 7)
    = Ok (object_of unchecked_options (Some schema_a) {[ "constructor" := num 7 ]}) ∧
  ObjectStorage.set (object_of default_options None ∅) "__proto__" (num 7)
    = Ok (object_of default_options None ∅).
Proof. vm_compute. done. Qed.

End ObjectFacts.

(** [set('n', 3)] without a schema, and [set('a', 'x')] under [{a:
    number}], which is not taken. *)
Lemma object_set_get_witness :
  (∃ s', ObjectStorage.set (object_of default_options None ∅) "n" (num 3) = Ok s' ∧
         ObjectStorage.get s' "n" = ObjectStorage.Held (num 3) ∧
         ObjectStorage.get s' "m" = ObjectStorage.Held VUndefined) ∧
  ObjectStorage.set (object_of default_options (Some schema_a) ∅) "a" (VStr "x")
  = Ok (object_of default_options (Some schema_a) ∅).
Proof.
  split.
  - destruct (object_set_get (object_of default_options None ∅) "n" (num 3))
      as [Hok _].
    eexists. split; [reflexivity|].
    destruct (Hok _ eq_refl) as (_ & Htaken).
    destruct Htaken as (Hkey & Hother); [reflexivity | discriminate |].
    split; [exact Hkey|]. rewrite (Hother "m") by discriminate. reflexivity.
  - destruct (object_set_get (object_of default_options (Some schema_a) ∅)
                "a" (VStr "x")) as [Hok _].
    destruct (ObjectStorage.set _ "a" (VStr "x")) as [s'|e] eqn:Hset;
      [|vm_compute in Hset; discriminate Hset].
    destruct (Hok s' eq_refl) as (Hsame & _).
    f_equal. apply Hsame. vm_compute. reflexivity.
Defined.

(** Loading [{a: 1, z: 2}] with and without the schema [{a: number}]. *)
Lemma object_load_witness :
  ObjectStorage.storage
    (ObjectStorage.construct
       {| ObjectStorage.objects := {[ "object.json" := {[ "a" := JNum 1; "z" := JNum 2 ]} ]};
          ObjectStorage.process := no_world |}
       "object.json" default_options None).2
    = {[ "a" := num 1; "z" := num 2 ]} ∧
  ObjectStorage.storage
    (ObjectStorage.construct
       {| ObjectStorage.objects := {[ "object.json" := {[ "a" := JNum 1; "z" := JNum 2 ]} ]};
          ObjectStorage.process := no_world |}
       "object.json" default_options (Some schema_a)).2 !! "a" = Some (num 1) ∧
  ObjectStorage.storage
    (ObjectStorage.construct
       {| ObjectStorage.objects := ∅; ObjectStorage.process := no_world |}
       "object.json" default_options None).2 = ∅.
Proof.
  destruct (object_load
              {| ObjectStorage.objects :=
                   {[ "object.json" := {[ "a" := JNum 1; "z" := JNum 2 ]} ]};
                 ObjectStorage.process := no_world |}
              "object.json" default_options) as [_ Hfile].
  destruct (Hfile {[ "a" := JNum 1; "z" := JNum 2 ]}) as (Hplain & _ & Hschema);
    [vm_compute; reflexivity|].
  destruct (object_load
              {| ObjectStorage.objects := ∅; ObjectStorage.process := no_world |}
              "object.json" default_options) as [Hmissing _].
  split_and!.
  - rewrite Hplain. vm_compute. reflexivity.
  - destruct (Hschema schema_a) as [_ Hvalue].
    refine (eq_trans (Hvalue ltac:(vm_compute; apply NoDup_singleton)
                        "a" (number_field VUndefined None) ltac:(by left)) _).
    vm_compute. reflexivity.
  - apply Hmissing. reflexivity.
Defined.

(** Saving [{n: 3}] and constructing the flat store again. *)
Lemma object_save_reload_witness :
  ObjectStorage.get
    (ObjectStorage.construct
       (ObjectStorage.save (object_of default_options None {[ "n" := num 3 ]})
          {| ObjectStorage.objects := ∅; ObjectStorage.process := no_world |})
       "object.json" default_options None).2 "n"
  = ObjectStorage.Held (num 3).
Proof.
  destruct (object_save_reload (object_of default_options None {[ "n" := num 3 ]})
              {| ObjectStorage.objects := ∅; ObjectStorage.process := no_world |} "n")
    as [Hplain _].
  - change (map_Forall (λ _ v, representable v = true)
              ({[ "n" := num 3 ]} : gmap string value)).
    apply (bool_decide_unpack _). vm_compute. reflexivity.
  - vm_compute. reflexivity.
  - exact Hplain.
Defined.

(** ** Invariants of the other calls *)

Section Kept.
Context `{JsRuntime}.

Lemma unique_ids_cons r rows :
  unique_ids (r :: rows) ↔
  Forall (λ y, shares_id r y = false) rows ∧ unique_ids rows.
Proof.
  split.
  - intros Hu. split.
    + apply Forall_forall. intros y Hy. apply list_elem_of_lookup in Hy as [j Hj].
      by apply (Hu 0%nat (S j)).
    + intros i j a b Ha Hb Hij. apply (Hu (S i) (S j)); [done..|lia].
  - intros [Hr Hu] i j a b Ha Hb Hij. rewrite Forall_forall in Hr.
    destruct i as [|i], j as [|j]; simpl in *; [done| | |].
    + injection Ha as <-. apply Hr. apply list_elem_of_lookup. eauto.
    + injection Hb as <-. rewrite shares_id_sym. apply Hr.
      apply list_elem_of_lookup. eauto.
    + apply (Hu i j); [done..|lia].
Qed.

Lemma unique_ids_perm l l' : l ≡ₚ l' → unique_ids l → unique_ids l'.
Proof.
  induction 1 as [|x l l' Hp IH|x y l|l l' l'' _ IH1 _ IH2]; [done| | |by eauto].
  - rewrite !unique_ids_cons. intros [Hx Hu]. split; [by rewrite <- Hp | by apply IH].
  - rewrite !unique_ids_cons. intros [Hy [Hx Hu]].
    apply Forall_cons in Hy as [Hyx Hy].
    split_and!; [|done..]. constructor; [by rewrite shares_id_sym | done].
Qed.

Lemma unique_ids_filter (p : row → bool) l :
  unique_ids l → unique_ids (List.filter p l).
Proof.
  induction l as [|x l IH]; simpl; [done|].
  rewrite unique_ids_cons. intros [Hx Hu].
  destruct (p x); [|by apply IH].
  apply unique_ids_cons. split; [|by apply IH].
  apply Forall_forall. intros y Hy. rewrite Forall_forall in Hx. apply Hx.
  apply list_elem_of_In, filter_In in Hy as [Hy _]. by apply list_elem_of_In.
Qed.

(** X19.  [delete], [clear] and [getAll] keep identifiers unique: a store in
    which no two rows share an identifier is left so by each of
    them. *)
Theorem unique_ids_kept s id sort :
  unique_ids (storage s) →
  unique_ids (storage (delete_ s id)) ∧
  unique_ids (storage (clear s)) ∧
  unique_ids (storage (getAll s sort).1).
Proof.
  intros Hu. split_and!.
  - by apply unique_ids_filter.
  - apply unique_ids_nil.
  - cbn [getAll fst storage with_storage]. unfold sort_.
    eapply unique_ids_perm; [|exact Hu]. symmetry. apply array_sort_perm.
Qed.

(** X20.  Under a schema that declares a field named [id], the identifier
    given to [add] is discarded: the appended row has for [id] the
    coerced value of the field. *)
Theorem declared_id_overrides s id values draws s' :
  "id" ∈ keys (structure s) →
  get s id = None →
  add s id values draws = Returned s' →
  ∃ r, storage s' = (storage s ++ [r])%list ∧
       prop r "id" = coerced (structure s) (options s) values "id".
Proof.
  intros Hid Hg Hadd.
  destruct (add_appends _ _ _ _ _ Hg Hadd) as (id' & r & Hr & _ & Hs').
  eexists. split; [exact Hs'|].
  apply prop_lookup, lookup_union_Some_raw. left.
  rewrite (createRow_lookup _ _ _ _ _ Hr). by rewrite decide_True.
Qed.

Lemma assign_row_app st opts r pre rest :
  (assign_row st opts r pre).2 = None →
  assign_row st opts r (pre ++ rest)
  = assign_row st opts (assign_row st opts r pre).1 rest.
Proof.
  revert r. induction pre as [|[k v] pre IH]; intros r; simpl; [done|].
  destruct (isCorrectType st opts k v) as [[|]|e]; simpl; [by apply IH..|done].
Qed.

(** X21.  [set] is not all-or-nothing.  With type-checking on, when [values]
    lists declared fields and then a field that the schema neither
    declares nor inherits from [Object.prototype], [set] on an
    identifier that exists raises [TypeError] and leaves the row with
    the entries listed before that field written, those that pass the
    check, and with none of those listed after it. *)
Theorem set_raise_keeps_earlier s id pre k v post draws r0 :
  checkType_off (options s) = false →
  get s id = Some r0 →
  (∀ k0 v0, (k0, v0) ∈ pre → k0 ∈ keys (structure s)) →
  k ∉ keys (structure s) →
  inherited k = false →
  ∃ r', set s id (pre ++ (k, v) :: post) draws
        = Thrown TypeError
            (with_storage s (<[findIndex (id_is id) (storage s) := r']> (storage s))) ∧
        (NoDup pre.*1 →
         ∀ k0 v0, (k0, v0) ∈ pre →
                  isCorrectType (structure s) (options s) k0 v0 = Ok true →
                  k0 ≠ "__proto__" →
                  r' !! k0 = Some v0) ∧
        (∀ k', k' ∉ pre.*1 → r' !! k' = r0 !! k').
Proof.
  intros Hoff Hg Hpre Hk Hi.
  assert ((assign_row (structure s) (options s) r0 pre).2 = None) as Hend.
  { apply assign_row_completes. intros k0 v0 Hin. right. by eapply Hpre. }
  exists (assign_row (structure s) (options s) r0 pre).1. split_and!.
  - destruct (set_existing s id (pre ++ (k, v) :: post) draws r0 Hg) as [_ ->].
    rewrite assign_row_app by done. simpl.
    assert (isCorrectType (structure s) (options s) k v = Raise TypeError) as ->.
    { by apply isCorrectType_raises. }
    done.
  - intros Hnd k0 v0 Hin Hc Hacc. by apply assign_row_written.
  - intros k' Hk'. by apply assign_row_other.
Qed.

Lemma perform_array_id s c s' :
  leaves (perform s c) s' → array_id s' = array_id s.
Proof.
  assert (∀ id values draws, leaves (add s id values draws) s' →
                             array_id s' = array_id s) as Hadd.
  { intros id values draws [Hr|[e He]]; [|by apply add_never_throws in He].
    unfold add, push_row in Hr. destruct (get s id); [by injection Hr as <-|].
    destruct (if nullish id then _ else _); [|done].
    destruct (createRow _ _ _); [|done]. by injection Hr as <-. }
  destruct c as [id values draws|id values draws]; simpl; [by apply Hadd|].
  destruct (get s id) as [r0|] eqn:Hg.
  - intros Hl. by rewrite (set_existing_leaves _ _ _ _ _ _ Hg Hl).
  - rewrite set_missing_is_add by done. by apply Hadd.
Qed.

(** X22.  The array [getAll] returned is the store's for as long as rows are
    added and set, whether the calls return or raise, and is no longer
    the store's once [delete] or [clear] has been called. *)
Theorem returned_array_aliasing s sort id :
  let s1 := (getAll s sort).1 in
  let returned := (getAll s sort).2 in
  (∀ calls s2, leaves (run s1 calls) s2 → view s2 returned = Some (storage s2)) ∧
  view (delete_ s1 id) returned = None ∧
  view (clear s1) returned = None.
Proof.
  intros s1 returned.
  assert (∀ calls s0 s2, leaves (run s0 calls) s2 → array_id s2 = array_id s0) as Hrun.
  { induction calls as [|c calls IH]; intros s0 s2 Hl; simpl in Hl.
    - destruct Hl as [[= <-]|[e [=]]]. done.
    - destruct (perform s0 c) as [s3|e3 s3|] eqn:Hp.
      + rewrite (IH s3 s2 Hl). apply (perform_array_id s0 c). left. done.
      + destruct Hl as [Hl|[e Hl]]; [done|].
        assert (s3 = s2) as -> by congruence.
        apply (perform_array_id s0 c). right. eauto.
      + destruct Hl as [[=]|[e [=]]]. }
  split_and!.
  - intros calls s2 Hl. unfold view, returned. rewrite (Hrun _ _ _ Hl).
    cbn [getAll fst snd array_id with_storage]. by rewrite bool_decide_eq_true_2.
  - apply returned_array_left_by_delete.
  - unfold view, s1, returned. simpl. rewrite bool_decide_eq_false_2; [done | lia].
Qed.

End Kept.

(** Deleting from, and sorting, [[{id: 2, a: 0}, {id: 1, a: 0}]]. *)
Lemma unique_ids_kept_witness :
  unique_ids [row_a 2 0] ∧ unique_ids [row_a 1 0; row_a 2 0].
Proof.
  destruct (unique_ids_kept (store_of schema_a default_options [row_a 2 0; row_a 1 0])
              (num 1) None) as (Hdelete & _ & Hsorted).
  - apply unique_ids_cons. split; [|apply unique_ids_cons; split;
                                     [constructor | apply unique_ids_nil]].
    repeat constructor.
  - split; [exact Hdelete | exact Hsorted].
Defined.

(** Under [{id: number, name: string}], [add(5, {name: 'x'})] appends a
    row whose [id] is [null]. *)
Lemma declared_id_overrides_witness :
  ∃ r, [ ({[ "id" := VNull; "name" := VStr "x" ]} : gmap string value) ]
       = ([] ++ [r])%list ∧
       prop r "id" = VNull.
Proof.
  destruct (declared_id_overrides (store_of schema_id_name default_options [])
              (num 5) [("name", VStr "x")] []
              (store_of schema_id_name default_options
                 [ {[ "id" := VNull; "name" := VStr "x" ]} ]))
    as (r & Hr & Hid).
  - vm_compute. by left.
  - reflexivity.
  - vm_compute. reflexivity.
  - exists r. split; [exact Hr|]. rewrite Hid. vm_compute. reflexivity.
Defined.

(** [set(1, {a: 10, z: 0, b: 3})] on [{id: 1, a: 5, b: 0}] under [{a,
    b}]: [a] is written, [z] raises, [b] is not reached. *)
Lemma set_raise_keeps_earlier_witness :
  set (store_of schema_ab default_options [row_ab 1 5 0]) (num 1)
      [("a", num 10); ("z", num 0); ("b", num 3)] []
    = Thrown TypeError (store_of schema_ab default_options [row_ab 1 10 0]) ∧
  ∃ r', set (store_of schema_ab default_options [row_ab 1 5 0]) (num 1)
            [("a", num 10); ("z", num 0); ("b", num 3)] []
        = Thrown TypeError
            (with_storage (store_of schema_ab default_options [row_ab 1 5 0])
               (<[0%nat := r']> [row_ab 1 5 0])) ∧
        r' !! "a" = Some (num 10) ∧ r' !! "b" = Some (num 0).
Proof.
  split; [vm_compute; reflexivity|].
  destruct (set_raise_keeps_earlier (store_of schema_ab default_options [row_ab 1 5 0])
              (num 1) [("a", num 10)] "z" (num 0) [("b", num 3)] [] (row_ab 1 5 0))
    as (r' & Hset & Hwritten & Hkept).
  - vm_compute. reflexivity.
  - vm_compute. reflexivity.
  - intros k0 v0 Hin. apply list_elem_of_singleton in Hin. injection Hin as -> _.
    vm_compute. by left.
  - vm_compute. intros Hin. inversion Hin as [|? ? ? Hin']; subst.
    inversion Hin' as [|? ? ? Hin'']; subst. inversion Hin''.
  - vm_compute. reflexivity.
  - exists r'. split; [exact Hset|]. split.
    + apply Hwritten; [apply NoDup_singleton | by left | vm_compute; reflexivity | done].
    + rewrite Hkept; [vm_compute; reflexivity|].
      intros Hin. apply list_elem_of_singleton in Hin. discriminate Hin.
Defined.

(** After [getAll()] and [add(3, {a: 1})], the array returned holds the
    three rows. *)
Lemma returned_array_aliasing_witness :
  view (store_of schema_a default_options [row_a 1 0; row_a 2 0; row_a 3 1])
       (getAll (store_of schema_a default_options [row_a 2 0; row_a 1 0]) None).2
  = Some [row_a 1 0; row_a 2 0; row_a 3 1].
Proof.
  destruct (returned_array_aliasing
              (store_of schema_a default_options [row_a 2 0; row_a 1 0]) None (num 0))
    as (Hlive & _ & _).
  apply (Hlive [Add (num 3) [("a", num 1)] []]).
  left. vm_compute. reflexivity.
Defined.
